(** * ConnectionPool: a shallow embedding of the Go package [pool]

    The development follows [pool.go] (type [channelPool] with [NewPool],
    [Get], [Put], [Ping], [Close], [Release]) and the declarations of
    [Config] and of the package errors.

    Conventions of the embedding.
    - Go's [int] is a 64-bit two's complement integer: it is a [Z] and every
      [++] / [--] of the source goes through [wrap64].
    - An [interface{}] value is [Nil] or a reference [Ref h]; the handle [h]
      is the identity of the resource.
    - The callbacks are data of the pool.  [factory] is a function of the
      number of calls made to it so far, so any deterministic sequence of
      successes and failures can be written down; every call of [close] is
      appended to the log [closeLog] of the environment.
    - A request channel ([make(chan idleConn, 1)]) lives in a heap of
      channels, [chans]; the wait queue holds the keys.  A receive on an
      empty open channel blocks, a receive on an empty closed channel gives
      [ok = false], a send on a full channel blocks, a send on a closed
      channel panics.
    - [sync.Mutex] is the atomicity of the functions below: one function per
      critical section.  The blocking [Get] is cut at the two places where
      the source leaves the lock: [Get_locked], then [Get_recv] or
      [Get_create].
    - [freeConn] is a slice of pointers; the only write through such a
      pointer, [conn.inUse = true] in [Get], is to an element that has just
      left the slice, so the slice is a list of values here.
    - [time.Now()] is the argument [now] of the function that reads the
      clock; [NewPool] stamps all the resources it creates with the same
      reading. *)

From Stdlib Require Import ZArith Lia List Bool.
From stdpp Require Import base option list gmap.

Local Open Scope Z_scope.

(** ** Machine integers *)

Definition wrap64 (z : Z) : Z := (z + 2^63) mod 2^64 - 2^63.
Definition in_int (z : Z) : Prop := - 2^63 <= z < 2^63.
Definition incr (n : Z) : Z := wrap64 (n + 1).
Definition decr (n : Z) : Z := wrap64 (n - 1).

(** ** Values, errors, callbacks *)

Inductive iface : Type :=
| Nil
| Ref (h : nat).

Inductive error : Type :=
| ErrInvalidCapacity
| ErrInvalidFactoryFunc
| ErrInvalidCloseFunc
| ErrInvalidPingFunc
| ErrOpenNumber
| ErrConnIsNil
| ErrPoolClosed
| ErrPoolClosedAndClose
| ErrUser (code : nat)        (* an error value made by a callback *)
| ErrFill (cause : error).    (* fmt.Errorf("factory is not able to fill the pool: %s", err) *)

Definition factoryFn : Type := nat -> iface * option error.
Definition closeFn : Type := iface -> option error.
Definition pingFn : Type := iface -> option error.

Inductive policyType : Type :=
| cachedOrNewConn
| alwaysNewConn.

Definition is_nil (v : iface) : bool :=
  match v with Nil => true | Ref _ => false end.

Definition is_cachedOrNew (p : policyType) : bool :=
  match p with cachedOrNewConn => true | alwaysNewConn => false end.

(** ** Data of the pool *)

Record idleConn : Type := mkIdleConn {
  conn : iface;
  inUse : bool;
  t : Z
}.

Record Config : Type := mkConfig {
  InitialCap : Z;
  MaxCap : Z;
  Factory : option factoryFn;
  CloseFunc : option closeFn;      (* field [Close] of [Config] *)
  PingFunc : option pingFn;        (* field [Ping] of [Config] *)
  IdleTimeout : Z
}.

Record channelPool : Type := mkPool {
  factory : factoryFn;
  close : closeFn;
  ping : option pingFn;
  freeConn : list idleConn;
  waitingQueue : list nat;
  numOpen : Z;
  closed : bool;
  maxIdle : Z;
  maxOpen : Z;
  strategy : policyType
}.

(** A buffered channel of capacity one. *)
Record chan : Type := mkChan {
  buf : option idleConn;
  chClosed : bool
}.

(** What the pool touches outside its own struct. *)
Record Env : Type := mkEnv {
  chans : gmap nat chan;
  nextChan : nat;
  closeLog : list iface;
  factoryCalls : nat
}.

Definition env0 : Env :=
  {| chans := ∅; nextChan := 0%nat; closeLog := []; factoryCalls := 0%nat |}.

(** Field updates. *)

Definition with_freeConn (l : list idleConn) (cp : channelPool) : channelPool :=
  mkPool cp.(factory) cp.(close) cp.(ping) l cp.(waitingQueue) cp.(numOpen)
         cp.(closed) cp.(maxIdle) cp.(maxOpen) cp.(strategy).

Definition with_waitingQueue (q : list nat) (cp : channelPool) : channelPool :=
  mkPool cp.(factory) cp.(close) cp.(ping) cp.(freeConn) q cp.(numOpen)
         cp.(closed) cp.(maxIdle) cp.(maxOpen) cp.(strategy).

Definition with_numOpen (n : Z) (cp : channelPool) : channelPool :=
  mkPool cp.(factory) cp.(close) cp.(ping) cp.(freeConn) cp.(waitingQueue) n
         cp.(closed) cp.(maxIdle) cp.(maxOpen) cp.(strategy).

Definition with_closed (b : bool) (cp : channelPool) : channelPool :=
  mkPool cp.(factory) cp.(close) cp.(ping) cp.(freeConn) cp.(waitingQueue)
         cp.(numOpen) b cp.(maxIdle) cp.(maxOpen) cp.(strategy).

Definition with_chans (m : gmap nat chan) (e : Env) : Env :=
  mkEnv m e.(nextChan) e.(closeLog) e.(factoryCalls).

Definition log_close (v : iface) (e : Env) : Env :=
  mkEnv e.(chans) e.(nextChan) (e.(closeLog) ++ [v]) e.(factoryCalls).

Definition log_closes (vs : list iface) (e : Env) : Env :=
  mkEnv e.(chans) e.(nextChan) (e.(closeLog) ++ vs) e.(factoryCalls).

Definition count_factory (e : Env) : Env :=
  mkEnv e.(chans) e.(nextChan) e.(closeLog) (S e.(factoryCalls)).

(** [make(chan idleConn, 1)] *)
Definition make_chan (e : Env) : nat * Env :=
  let req := e.(nextChan) in
  (req, mkEnv (<[req := mkChan None false]> e.(chans)) (S req)
              e.(closeLog) e.(factoryCalls)).

(** ** Outcomes of a call *)

Inductive outcome (A : Type) : Type :=
| Returned (a : A)
| Blocked
| Panicked.
Arguments Returned {A} a.
Arguments Blocked {A}.
Arguments Panicked {A}.

(** ** Release *)

Definition Release (cp : channelPool) (e : Env) : channelPool * Env :=
  (with_closed true cp, log_closes (map conn cp.(freeConn)) e).

(** ** NewPool *)

(** The loop [for i := 0; i < InitialCap; i++] of [NewPool]; the result is
    the error of the factory, if one of the calls failed. *)
Fixpoint fill (n : nat) (now : Z) (cp : channelPool) (e : Env)
  : option error * channelPool * Env :=
  match n with
  | O => (None, cp, e)
  | S n' =>
      let '(v, err) := cp.(factory) e.(factoryCalls) in
      let e1 := count_factory e in
      match err with
      | Some er =>
          let '(cp2, e2) := Release cp e1 in
          (Some er, cp2, e2)
      | None =>
          fill n' now
               (with_freeConn (cp.(freeConn) ++ [mkIdleConn v false now]) cp) e1
      end
  end.

Definition NewPool (poolConfig : Config) (now : Z) (e : Env)
  : option channelPool * option error * Env :=
  if (poolConfig.(InitialCap) <? 0) || (poolConfig.(MaxCap) <? 0)
     || (poolConfig.(MaxCap) <? poolConfig.(InitialCap))
  then (None, Some ErrInvalidCapacity, e)
  else
    match poolConfig.(Factory) with
    | None => (None, Some ErrInvalidFactoryFunc, e)
    | Some f =>
        match poolConfig.(CloseFunc) with
        | None => (None, Some ErrInvalidCloseFunc, e)
        | Some c =>
            let cp := {| factory := f; close := c; ping := poolConfig.(PingFunc);
                         freeConn := []; waitingQueue := []; numOpen := 0;
                         closed := false; maxIdle := poolConfig.(InitialCap);
                         maxOpen := poolConfig.(MaxCap);
                         strategy := cachedOrNewConn |} in
            match fill (Z.to_nat poolConfig.(InitialCap)) now cp e with
            | (Some er, _, e') => (None, Some (ErrFill er), e')
            | (None, cp', e') =>
                (Some (with_numOpen poolConfig.(InitialCap) cp'), None, e')
            end
        end
    end.

(** ** Get *)

Inductive getLocked : Type :=
| GetReturn (r : iface * option error)
| GetWait (req : nat)
| GetCreate.

(** The critical section of [Get]: from [cp.mu.Lock()] to the [Unlock] of
    the branch taken. *)
Definition Get_locked (cp : channelPool) (e : Env)
  : getLocked * channelPool * Env :=
  if cp.(closed) then (GetReturn (Nil, Some ErrPoolClosed), cp, e)
  else
    match is_cachedOrNew cp.(strategy), cp.(freeConn) with
    | true, c :: rest =>
        (GetReturn (c.(conn), None), with_freeConn rest cp, e)
    | _, _ =>
        if (0 <? cp.(maxOpen)) && (cp.(maxOpen) <=? cp.(numOpen)) then
          let '(req, e') := make_chan e in
          (GetWait req, with_waitingQueue (cp.(waitingQueue) ++ [req]) cp, e')
        else
          (GetCreate, with_numOpen (incr cp.(numOpen)) cp, e)
    end.

(** [ret, ok := <-req] and the lines after it; [None] while the receive
    blocks. *)
Definition Get_recv (req : nat) (e : Env)
  : option ((iface * option error) * Env) :=
  match e.(chans) !! req with
  | None => None
  | Some ch =>
      match ch.(buf) with
      | Some ret =>
          Some ((ret.(conn), None),
                with_chans (<[req := mkChan None ch.(chClosed)]> e.(chans)) e)
      | None =>
          if ch.(chClosed) then Some ((Nil, Some ErrPoolClosed), e) else None
      end
  end.

(** The creation path, after the lock is released: the call of the factory
    and the undo of the reservation when it fails. *)
Definition Get_create (now : Z) (cp : channelPool) (e : Env)
  : (iface * option error) * channelPool * Env :=
  let '(v, err) := cp.(factory) e.(factoryCalls) in
  let e1 := count_factory e in
  match err with
  | Some er => ((Nil, Some er), with_numOpen (decr cp.(numOpen)) cp, e1)
  | None =>
      let ic := mkIdleConn v true now in
      ((ic.(conn), None), cp, e1)
  end.

(** [Get] run by one caller with nobody else running meanwhile. *)
Definition Get (now : Z) (cp : channelPool) (e : Env)
  : outcome (iface * option error) * channelPool * Env :=
  match Get_locked cp e with
  | (GetReturn r, cp1, e1) => (Returned r, cp1, e1)
  | (GetWait req, cp1, e1) =>
      match Get_recv req e1 with
      | Some (r, e2) => (Returned r, cp1, e2)
      | None => (Blocked, cp1, e1)
      end
  | (GetCreate, cp1, e1) =>
      let '(r, cp2, e2) := Get_create now cp1 e1 in
      (Returned r, cp2, e2)
  end.

(** ** Put *)

(** [req <- v] *)
Definition send (req : nat) (v : idleConn) (e : Env) : outcome Env :=
  match e.(chans) !! req with
  | None => Blocked
  | Some ch =>
      if ch.(chClosed) then Panicked
      else match ch.(buf) with
           | Some _ => Blocked
           | None => Returned (with_chans (<[req := mkChan (Some v) false]> e.(chans)) e)
           end
  end.

Definition Put (now : Z) (c : iface) (cp : channelPool) (e : Env)
  : outcome (option error) * channelPool * Env :=
  if is_nil c then (Returned (Some ErrConnIsNil), cp, e)
  else if cp.(closed) then
    (Returned (Some ErrPoolClosedAndClose), cp, log_close c e)
  else if (0 <? cp.(maxOpen)) && (cp.(maxOpen) <? cp.(numOpen)) then
    (Returned (Some ErrOpenNumber), cp, e)
  else
    match cp.(waitingQueue) with
    | req :: rest =>
        let cp1 := with_waitingQueue rest cp in
        match send req (mkIdleConn c true now) e with
        | Returned e1 => (Returned None, cp1, e1)
        | Blocked => (Blocked, cp1, e)
        | Panicked => (Panicked, cp1, e)
        end
    | [] =>
        (Returned None,
         with_freeConn (cp.(freeConn) ++ [mkIdleConn c false now]) cp, e)
    end.

(** ** Ping and Close *)

Definition Ping (c : iface) (cp : channelPool) : option error :=
  if is_nil c then Some ErrConnIsNil
  else match cp.(ping) with
       | None => Some ErrInvalidPingFunc
       | Some p => p c
       end.

Definition Close (c : iface) (cp : channelPool) (e : Env)
  : option error * channelPool * Env :=
  if is_nil c then (Some ErrConnIsNil, cp, e)
  else if cp.(closed) then (Some ErrPoolClosedAndClose, cp, log_close c e)
  else (cp.(close) c, with_numOpen (decr cp.(numOpen)) cp, log_close c e).

(** ** Callers running concurrently

    The callers of one pool interleave at the granularity of the critical
    sections.  Besides the pool and its environment the system remembers
    where the callers inside [Get] stand: [creating] callers have reserved a
    slot and are in, or about to enter, the factory; the callers of
    [waiting] are suspended on their request channel.  A [Put] that would
    block while it holds the lock, or panic, stops the system ([halted]);
    the invariant [chan_inv] below shows that this never happens. *)

Record Sys : Type := mkSys {
  pool : channelPool;
  env : Env;
  creating : nat;
  waiting : list nat;
  halted : bool
}.

Inductive action : Type :=
| AGet                         (* a caller runs the critical section of Get *)
| ACreate (now : Z)            (* a caller on the creation path calls the factory *)
| ARecv (req : nat)            (* the caller waiting on [req] tries its receive *)
| APut (now : Z) (c : iface)
| AClose (c : iface)
| ARelease.

Definition boot (cp : channelPool) (e : Env) : Sys :=
  mkSys cp e 0%nat [] false.

Definition step (a : action) (s : Sys) : Sys :=
  if s.(halted) then s
  else
    match a with
    | AGet =>
        match Get_locked s.(pool) s.(env) with
        | (GetReturn _, cp, e) => mkSys cp e s.(creating) s.(waiting) false
        | (GetWait req, cp, e) =>
            mkSys cp e s.(creating) (s.(waiting) ++ [req]) false
        | (GetCreate, cp, e) => mkSys cp e (S s.(creating)) s.(waiting) false
        end
    | ACreate now =>
        match s.(creating) with
        | O => s
        | S k =>
            let '(_, cp, e) := Get_create now s.(pool) s.(env) in
            mkSys cp e k s.(waiting) false
        end
    | ARecv req =>
        if bool_decide (req ∈ s.(waiting)) then
          match Get_recv req s.(env) with
          | Some (_, e) =>
              mkSys s.(pool) e s.(creating)
                    (filter (λ r, r ≠ req) s.(waiting)) false
          | None => s
          end
        else s
    | APut now c =>
        match Put now c s.(pool) s.(env) with
        | (Returned _, cp, e) => mkSys cp e s.(creating) s.(waiting) false
        | (_, cp, e) => mkSys cp e s.(creating) s.(waiting) true
        end
    | AClose c =>
        let '(_, cp, e) := Close c s.(pool) s.(env) in
        mkSys cp e s.(creating) s.(waiting) false
    | ARelease =>
        let '(cp, e) := Release s.(pool) s.(env) in
        mkSys cp e s.(creating) s.(waiting) false
    end.

Definition run (acts : list action) (s : Sys) : Sys :=
  fold_left (λ s a, step a s) acts s.

Definition is_get_put (a : action) : bool :=
  match a with
  | AGet | ACreate _ | ARecv _ | APut _ _ => true
  | AClose _ | ARelease => false
  end.

(** The channels of the wait queue are distinct, allocated, open and empty;
    no channel at all is closed. *)
Record chan_inv (s : Sys) : Prop := mkChanInv {
  ci_running : s.(halted) = false;
  ci_nodup : NoDup s.(pool).(waitingQueue);
  ci_queue : ∀ req, req ∈ s.(pool).(waitingQueue) →
                    s.(env).(chans) !! req = Some (mkChan None false);
  ci_alloc : ∀ req ch, s.(env).(chans) !! req = Some ch →
                       (req < s.(env).(nextChan))%nat ∧ ch.(chClosed) = false
}.

(** The accounting of a bounded pool when only [Get] and [Put] run. *)
Record count_inv (s : Sys) : Prop := mkCountInv {
  ci_bounded : 0 < s.(pool).(maxOpen) < 2^63;
  ci_lower : Z.of_nat s.(creating) <= s.(pool).(numOpen);
  ci_upper : s.(pool).(numOpen) <= s.(pool).(maxOpen)
}.

(** ** Pools and callbacks used in the examples *)

Definition fresh_factory : factoryFn := λ n, (Ref n, None).
Definition failing_factory : factoryFn := λ _, (Nil, Some (ErrUser 0)).
(** Fails on its first call only. *)
Definition repaired_factory : factoryFn :=
  λ n, match n with O => (Nil, Some (ErrUser 0)) | S _ => (Ref n, None) end.
Definition ok_close : closeFn := λ _, None.

Definition config (initialCap maxCap : Z) (f : factoryFn) : Config :=
  {| InitialCap := initialCap; MaxCap := maxCap; Factory := Some f;
     CloseFunc := Some ok_close; PingFunc := None; IdleTimeout := 0 |}.

(** The pool a successful [NewPool] builds, and a closed empty pool when it
    fails. *)
Definition pool_of (cfg : Config) (now : Z) : channelPool * Env :=
  match NewPool cfg now env0 with
  | (Some cp, _, e) => (cp, e)
  | (None, _, e) =>
      (mkPool failing_factory ok_close None [] [] 0 true 0 0 cachedOrNewConn, e)
  end.

(** The three configuration errors of [NewPool]. *)
Definition invalid_config (r : option error) : bool :=
  match r with
  | Some ErrInvalidCapacity | Some ErrInvalidFactoryFunc
  | Some ErrInvalidCloseFunc => true
  | _ => false
  end.

(** The rejected configurations, in the words of the specification. *)
Definition spec_rejects (cfg : Config) : Prop :=
  cfg.(InitialCap) < 0 ∨ cfg.(Factory) = None ∨ cfg.(CloseFunc) = None
  ∨ (cfg.(MaxCap) > 0 ∧ cfg.(InitialCap) > cfg.(MaxCap)).

(** The rejected configurations, as the guards of [NewPool] have them. *)
Definition code_rejects (cfg : Config) : Prop :=
  cfg.(InitialCap) < 0 ∨ cfg.(MaxCap) < 0 ∨ cfg.(InitialCap) > cfg.(MaxCap)
  ∨ cfg.(Factory) = None ∨ cfg.(CloseFunc) = None.

(** The pool with one idle resource that [NewPool] makes for
    [InitialCap = MaxCap = 1]. *)
Definition one_idle : channelPool * Env := pool_of (config 1 1 fresh_factory) 0.

(** A caller blocked in [Get]: the pool of [one_idle], its resource taken by
    a first [Get], a second [Get] waiting on channel 0. *)
Definition one_waiter : Sys :=
  run [AGet; AGet] (boot one_idle.1 one_idle.2).

(** The guard [cp.maxOpen > 0 && cp.numOpen > cp.maxOpen] of [Put]. *)
Definition over_capacity (cp : channelPool) : bool :=
  (0 <? cp.(maxOpen)) && (cp.(maxOpen) <? cp.(numOpen)).

(** The pool of [InitialCap = 1], [MaxCap = 2] after two [Get] (the idle
    resource [Ref 0], then a new one, [Ref 1]) and the [Put] of [Ref 0]: the
    idle set holds [maxIdle = 1] resource. *)
Definition full_idle : channelPool * Env :=
  let '(cp, e) := pool_of (config 1 2 fresh_factory) 0 in
  let '(_, cp, e) := Get 1 cp e in
  let '(_, cp, e) := Get 2 cp e in
  let '(_, cp, e) := Put 3 (Ref 0) cp e in
  (cp, e).

(** A configuration with an idle timeout of 5. *)
Definition timeout_config : Config :=
  {| InitialCap := 1; MaxCap := 2; Factory := Some fresh_factory;
     CloseFunc := Some ok_close; PingFunc := None; IdleTimeout := 5 |}.

(** Three [Get] on the pool of [one_idle]: the first takes the resource
    [Ref 0], the second and the third wait, on the channels 0 and 1. *)
Definition two_waiters : Sys :=
  run [AGet; AGet; AGet] (boot one_idle.1 one_idle.2).

(** The pool of [InitialCap = MaxCap = 2]: two idle resources, [Ref 0] in
    front of [Ref 1]. *)
Definition two_idle : channelPool * Env := pool_of (config 2 2 fresh_factory) 0.

(** ** Loops of one caller

    The loops of a caller such as the package's own test, which calls [Get]
    [MaxCap] times and then [Put] on each element of a slice.  A call that
    does not return ends the loop: the caller is stuck in it. *)

Fixpoint Gets (now : Z) (n : nat) (cp : channelPool) (e : Env)
  : list (outcome (iface * option error)) * channelPool * Env :=
  match n with
  | O => ([], cp, e)
  | S n' =>
      match Get now cp e with
      | (Returned r, cp1, e1) =>
          let '(rs, cp2, e2) := Gets now n' cp1 e1 in
          (Returned r :: rs, cp2, e2)
      | (o, cp1, e1) => ([o], cp1, e1)
      end
  end.

Fixpoint Puts (now : Z) (cs : list iface) (cp : channelPool) (e : Env)
  : list (outcome (option error)) * channelPool * Env :=
  match cs with
  | [] => ([], cp, e)
  | c :: cs' =>
      match Put now c cp e with
      | (Returned r, cp1, e1) =>
          let '(rs, cp2, e2) := Puts now cs' cp1 e1 in
          (Returned r :: rs, cp2, e2)
      | (o, cp1, e1) => ([o], cp1, e1)
      end
  end.


Definition add_factoryCalls (n : nat) (e : Env) : Env :=
  mkEnv e.(chans) e.(nextChan) e.(closeLog) (e.(factoryCalls) + n)%nat.


Local Ltac solve_cfg :=
  repeat split; intros;
  repeat match goal with
         | H : _ ∨ _ |- _ => destruct H
         | H : is_Some None |- _ => destruct H; discriminate
         end;
  try done; try lia; auto 10 with lia.

(** * Properties *)

(** ** Machine integers *)

Lemma wrap64_in_int (z : Z) : in_int z → wrap64 z = z.
Proof.
  unfold in_int, wrap64. intros Hz.
  rewrite Z.mod_small by lia. lia.
Qed.

Lemma wrap64_range (z : Z) : in_int (wrap64 z).
Proof.
  unfold in_int, wrap64.
  pose proof (Z.mod_pos_bound (z + 2^63) (2^64) ltac:(lia)). lia.
Qed.

Lemma wrap64_idem (z k : Z) : wrap64 (wrap64 z + k) = wrap64 (z + k).
Proof.
  unfold wrap64. f_equal.
  replace ((z + 2 ^ 63) mod 2 ^ 64 - 2 ^ 63 + k + 2 ^ 63)
    with ((z + 2 ^ 63) mod 2 ^ 64 + k) by lia.
  replace (z + k + 2 ^ 63) with ((z + 2^63) + k) by lia.
  rewrite Zplus_mod_idemp_l. reflexivity.
Qed.

Lemma decr_incr (n : Z) : in_int n → decr (incr n) = n.
Proof.
  intros Hn. unfold decr, incr.
  replace (wrap64 (n + 1) - 1) with (wrap64 (n + 1) + (-1)) by lia.
  rewrite wrap64_idem. replace (n + 1 + -1) with n by lia.
  by apply wrap64_in_int.
Qed.

Lemma incr_small (n : Z) : in_int n → n < 2^63 - 1 → incr n = n + 1.
Proof. unfold in_int, incr. intros ? ?. apply wrap64_in_int. unfold in_int. lia. Qed.

Lemma decr_small (n : Z) : in_int n → - 2^63 < n → decr n = n - 1.
Proof. unfold in_int, decr. intros ? ?. apply wrap64_in_int. unfold in_int. lia. Qed.

(** ** Release *)


(** [Release] calls the closer once on every idle resource, in order, and
    touches neither the wait queue nor any channel. *)
Lemma Release_spec (cp : channelPool) (e : Env) :
  let '(cp', e') := Release cp e in
  cp'.(closed) = true
  ∧ e'.(closeLog) = e.(closeLog) ++ map conn cp.(freeConn)
  ∧ cp'.(waitingQueue) = cp.(waitingQueue)
  ∧ cp'.(freeConn) = cp.(freeConn)
  ∧ cp'.(numOpen) = cp.(numOpen)
  ∧ e'.(chans) = e.(chans).
Proof. simpl. auto 10. Qed.

Lemma Release_keeps_blocked (cp : channelPool) (e : Env) (req : nat) :
  Get_recv req e = None → Get_recv req (Release cp e).2 = None.
Proof.
  unfold Get_recv, Release. simpl.
  destruct (chans e !! req) as [[[ret|] []]|]; simpl; congruence.
Qed.

(** ** The channels of the wait queue *)

Lemma boot_chan_inv (cp : channelPool) (e : Env) :
  cp.(waitingQueue) = [] →
  (∀ req ch, e.(chans) !! req = Some ch →
             (req < e.(nextChan))%nat ∧ ch.(chClosed) = false) →
  chan_inv (boot cp e).
Proof.
  intros Hq Ha. constructor; simpl; auto.
  - rewrite Hq. constructor.
  - rewrite Hq. intros req Hin. by apply elem_of_nil in Hin.
Qed.

Lemma Get_locked_chan_inv (s : Sys) (r : getLocked) (cp : channelPool) (e : Env)
      (k : nat) (w : list nat) :
  chan_inv s →
  Get_locked s.(pool) s.(env) = (r, cp, e) →
  chan_inv (mkSys cp e k w false).
Proof.
  intros [_ Hnd Hq Ha]. unfold Get_locked.
  destruct (closed (pool s)).
  { intros [= <- <- <-]. by constructor. }
  destruct (is_cachedOrNew (strategy (pool s))) eqn:Hs, (freeConn (pool s)) eqn:Hf;
    try (intros [= <- <- <-]; by constructor);
    (destruct ((0 <? maxOpen (pool s)) && (maxOpen (pool s) <=? numOpen (pool s)));
     [ | intros [= <- <- <-]; by constructor ]);
    unfold make_chan; intros [= <- <- <-]; constructor; simpl; auto.
  all: try (apply NoDup_app; split; [done|]; split; [|apply NoDup_singleton];
            intros x Hx ->%list_elem_of_singleton;
            apply Hq in Hx; apply Ha in Hx; lia).
  all: try (intros req [Hin| ->%list_elem_of_singleton]%elem_of_app;
            [ rewrite lookup_insert_ne; [by apply Hq|];
              intros <-; apply Hq in Hin; apply Ha in Hin; lia
            | by rewrite lookup_insert_eq ]).
  all: intros req ch; destruct (decide (nextChan (env s) = req)) as [<-|Hne];
    [ rewrite lookup_insert_eq; intros [= <-]; simpl; split; [lia|done]
    | rewrite lookup_insert_ne by done; intros Hl; apply Ha in Hl; split; [lia|tauto] ].
Qed.

Lemma Get_recv_chan_inv (s : Sys) (req : nat) (r : iface * option error)
      (e : Env) (k : nat) (w : list nat) :
  chan_inv s →
  Get_recv req s.(env) = Some (r, e) →
  chan_inv (mkSys s.(pool) e k w false).
Proof.
  intros [_ Hnd Hq Ha]. unfold Get_recv.
  destruct (chans (env s) !! req) as [ch|] eqn:Hch; [|done].
  destruct (buf ch) as [ret|] eqn:Hb.
  - intros [= <- <-]. constructor; simpl; auto.
    + intros r Hin. rewrite lookup_insert_ne; [by apply Hq|].
      intros <-. apply Hq in Hin. rewrite Hin in Hch.
      injection Hch as <-. discriminate.
    + intros r c. destruct (decide (req = r)) as [<-|Hne].
      * rewrite lookup_insert_eq. intros [= <-]. simpl.
        apply Ha in Hch. tauto.
      * rewrite lookup_insert_ne by done. apply Ha.
  - destruct (chClosed ch); [|done]. intros [= <- <-]. by constructor.
Qed.

Lemma send_queue_head (e : Env) (req : nat) (v : idleConn) :
  e.(chans) !! req = Some (mkChan None false) →
  send req v e = Returned (with_chans (<[req := mkChan (Some v) false]> e.(chans)) e).
Proof. unfold send. intros ->. reflexivity. Qed.

Lemma Put_chan_inv (s : Sys) (now : Z) (c : iface) :
  chan_inv s → chan_inv (step (APut now c) s).
Proof.
  intros Hinv. pose proof Hinv as [Hr Hnd Hq Ha].
  unfold step. rewrite Hr. unfold Put.
  destruct (is_nil c); [by constructor|].
  destruct (closed (pool s)); [by constructor|].
  destruct ((0 <? maxOpen (pool s)) && (maxOpen (pool s) <? numOpen (pool s)));
    [by constructor|].
  destruct (waitingQueue (pool s)) as [|req rest] eqn:Hw.
  { constructor; simpl; auto; by rewrite Hw. }
  rewrite (send_queue_head _ _ _ (Hq req ltac:(left))).
  apply NoDup_cons in Hnd as [Hnotin Hnd].
  constructor; simpl; auto.
  - intros r Hin. rewrite lookup_insert_ne; [apply Hq; by right|].
    intros <-. done.
  - intros r ch. destruct (decide (req = r)) as [<-|Hne].
    + rewrite lookup_insert_eq. intros [= <-]. simpl.
      split; [|done]. eapply Ha, Hq. by left.
    + rewrite lookup_insert_ne by done. apply Ha.
Qed.

Lemma step_chan_inv (a : action) (s : Sys) : chan_inv s → chan_inv (step a s).
Proof.
  intros Hinv. destruct a as [|now|req|now c|c|].
  - unfold step. rewrite (ci_running _ Hinv).
    destruct (Get_locked (pool s) (env s)) as [[r cp] e] eqn:HG.
    destruct r; eapply Get_locked_chan_inv; eauto.
  - unfold step. rewrite (ci_running _ Hinv).
    destruct (creating s) as [|k]; [done|].
    unfold Get_create.
    destruct (factory (pool s) (factoryCalls (env s))) as [v [er|]];
      destruct Hinv; by constructor.
  - unfold step. rewrite (ci_running _ Hinv).
    case_bool_decide; [|done].
    destruct (Get_recv req (env s)) as [[r e]|] eqn:HR; [|done].
    eapply Get_recv_chan_inv; eauto.
  - by apply Put_chan_inv.
  - unfold step. rewrite (ci_running _ Hinv). unfold Close.
    destruct (is_nil c), (closed (pool s)); destruct Hinv; by constructor.
  - unfold step. rewrite (ci_running _ Hinv). destruct Hinv; by constructor.
Qed.

Lemma run_chan_inv (acts : list action) (s : Sys) :
  chan_inv s → chan_inv (run acts s).
Proof.
  revert s. induction acts as [|a acts IH]; intros s Hinv; [done|].
  simpl. apply IH. by apply step_chan_inv.
Qed.

(** ** NewPool *)

Lemma fill_ok (n : nat) (now : Z) (cp cp' : channelPool) (e e' : Env) :
  fill n now cp e = (None, cp', e') →
  cp' = with_freeConn cp'.(freeConn) cp
  ∧ length cp'.(freeConn) = (length cp.(freeConn) + n)%nat
  ∧ e'.(chans) = e.(chans) ∧ e'.(nextChan) = e.(nextChan)
  ∧ e'.(closeLog) = e.(closeLog).
Proof.
  revert cp e. induction n as [|n IH]; intros cp e; simpl.
  - intros [= <- <-]. destruct cp; simpl. repeat split; auto with lia.
  - destruct (factory cp (factoryCalls e)) as [v [er|]]; [done|].
    intros Hf. apply IH in Hf as (Hcp & Hlen & Hch & Hnx & Hlog).
    simpl in *. rewrite length_app in Hlen. simpl in Hlen.
    repeat split; auto with lia.
Qed.

Lemma NewPool_ok (cfg : Config) (now : Z) (e e' : Env) (cp : channelPool) :
  NewPool cfg now e = (Some cp, None, e') →
  0 <= cfg.(InitialCap) <= cfg.(MaxCap)
  ∧ cp.(numOpen) = cfg.(InitialCap)
  ∧ cp.(maxOpen) = cfg.(MaxCap)
  ∧ cp.(maxIdle) = cfg.(InitialCap)
  ∧ cp.(closed) = false
  ∧ cp.(waitingQueue) = []
  ∧ cp.(strategy) = cachedOrNewConn
  ∧ length cp.(freeConn) = Z.to_nat cfg.(InitialCap)
  ∧ e'.(chans) = e.(chans) ∧ e'.(nextChan) = e.(nextChan)
  ∧ e'.(closeLog) = e.(closeLog).
Proof.
  unfold NewPool.
  destruct (_ || _) eqn:Hcap; [done|].
  apply orb_false_iff in Hcap as [Hcap H3].
  apply orb_false_iff in Hcap as [H1 H2].
  apply Z.ltb_ge in H1, H2, H3.
  destruct (Factory cfg) as [f|]; [|done].
  destruct (CloseFunc cfg) as [c|]; [|done].
  destruct (fill _ _ _ _) as [[[er|] cp'] e''] eqn:Hfill; [done|].
  intros [= <- <-].
  apply fill_ok in Hfill as (Hcp & Hlen & Hch & Hnx & Hlog).
  rewrite Hcp. simpl in *. repeat split; auto with lia.
Qed.

(** ** The accounting of a bounded pool under [Get] and [Put] *)

Lemma step_count_inv (a : action) (s : Sys) :
  is_get_put a = true → count_inv s → count_inv (step a s).
Proof.
  intros Ha [Hb Hl Hu]. unfold step.
  destruct (halted s); [by constructor|].
  destruct a as [|now|req|now c|c|]; try discriminate.
  - unfold Get_locked.
    destruct (closed (pool s)); [by constructor|].
    destruct (is_cachedOrNew (strategy (pool s))), (freeConn (pool s));
      try (by constructor);
      (destruct (0 <? maxOpen (pool s)) eqn:H0; simpl;
       [ destruct (maxOpen (pool s) <=? numOpen (pool s)) eqn:H1;
         [ by constructor | apply Z.leb_gt in H1 ]
       | apply Z.ltb_ge in H0; lia ]);
      constructor; simpl; auto;
      rewrite incr_small by (unfold in_int; lia); lia.
  - destruct (creating s) as [|k] eqn:Hk; [constructor; rewrite ?Hk; done|].
    unfold Get_create.
    destruct (factory (pool s) (factoryCalls (env s))) as [v [er|]];
      constructor; simpl; auto; try lia;
      rewrite decr_small by (unfold in_int; lia); lia.
  - case_bool_decide; [|by constructor].
    destruct (Get_recv req (env s)) as [[r e]|]; by constructor.
  - unfold Put.
    destruct (is_nil c); [by constructor|].
    destruct (closed (pool s)); [by constructor|].
    destruct (_ && _); [by constructor|].
    destruct (waitingQueue (pool s)) as [|req rest]; [by constructor|].
    destruct (send _ _ _); by constructor.
Qed.

Lemma run_count_inv (acts : list action) (s : Sys) :
  forallb is_get_put acts = true → count_inv s → count_inv (run acts s).
Proof.
  revert s. induction acts as [|a acts IH]; intros s Hall Hinv; [done|].
  simpl in *. apply andb_true_iff in Hall as [Ha Hall].
  apply IH; [done|]. by apply step_count_inv.
Qed.

(** A caller that has to wait has just made its channel: its receive
    blocks until somebody else sends. *)
Lemma Get_locked_wait (cp cp1 : channelPool) (e e1 : Env) (req : nat) :
  Get_locked cp e = (GetWait req, cp1, e1) →
  req = e.(nextChan)
  ∧ cp1 = with_waitingQueue (cp.(waitingQueue) ++ [req]) cp
  ∧ e1.(chans) !! req = Some (mkChan None false)
  ∧ Get_recv req e1 = None.
Proof.
  unfold Get_locked.
  destruct (closed cp); [done|].
  destruct (is_cachedOrNew (strategy cp)), (freeConn cp); try done;
    destruct ((0 <? maxOpen cp) && (maxOpen cp <=? numOpen cp)); try done;
    intros [= <- <- <-]; unfold Get_recv; simpl;
    rewrite lookup_insert_eq; done.
Qed.

(** [Get] and [Put] of a single caller are runs of the system. *)
Lemma Get_is_run (now : Z) (s : Sys) :
  chan_inv s →
  ∃ acts, forallb is_get_put acts = true
          ∧ (run acts s).(pool) = (Get now s.(pool) s.(env)).1.2
          ∧ (run acts s).(env) = (Get now s.(pool) s.(env)).2.
Proof.
  intros Hinv. pose proof (ci_running _ Hinv) as Hr. unfold Get.
  destruct (Get_locked (pool s) (env s)) as [[[r|req|] cp] e] eqn:HG.
  - exists [AGet]. simpl. unfold step. rewrite Hr, HG. done.
  - pose proof (Get_locked_wait _ _ _ _ _ HG) as (_ & _ & _ & ->).
    exists [AGet]. simpl. unfold step. rewrite Hr, HG. done.
  - exists [AGet; ACreate now].
    assert (step AGet s = mkSys cp e (S (creating s)) (waiting s) false) as Hs
      by (unfold step; by rewrite Hr, HG).
    unfold run. simpl. rewrite Hs. unfold step. simpl.
    destruct (Get_create now cp e) as [[r cp2] e2]. done.
Qed.

Lemma Put_is_run (now : Z) (c : iface) (s : Sys) :
  s.(halted) = false →
  (run [APut now c] s).(pool) = (Put now c s.(pool) s.(env)).1.2
  ∧ (run [APut now c] s).(env) = (Put now c s.(pool) s.(env)).2.
Proof.
  intros Hr. simpl. unfold step. rewrite Hr.
  destruct (Put now c (pool s) (env s)) as [[[r| |] cp] e]; done.
Qed.

(** * The specification, statement by statement *)

(** ** Construction *)

(** C5, as stated, fails: with [MaxCap = 0] and [InitialCap = 1] (both
    callbacks set) the specification accepts the configuration, and
    [NewPool] returns [ErrInvalidCapacity]. *)
Lemma NewPool_unbounded_initial_rejected :
  let cfg := config 1 0 fresh_factory in
  NewPool cfg 0 env0 = (None, Some ErrInvalidCapacity, env0)
  ∧ invalid_config (NewPool cfg 0 env0).1.2 = true
  ∧ ¬ spec_rejects cfg.
Proof.
  simpl. repeat split.
  unfold spec_rejects. simpl. intros [H|[H|[H|[H _]]]]; (lia || discriminate).
Qed.

(** C5, amended: [NewPool] fails with a configuration error exactly when
    [InitialCap < 0], or [MaxCap < 0], or [InitialCap > MaxCap] (also when
    [MaxCap = 0]), or the factory is nil, or the closer is nil; it then
    returns no pool and calls no callback.  With [MaxCap = 0] a configuration
    with both callbacks is accepted exactly when [InitialCap = 0]. *)
Theorem NewPool_invalid_config (cfg : Config) (now : Z) (e : Env) :
  (invalid_config (NewPool cfg now e).1.2 = true ↔ code_rejects cfg)
  ∧ (invalid_config (NewPool cfg now e).1.2 = true →
     (NewPool cfg now e).1.1 = None ∧ (NewPool cfg now e).2 = e)
  ∧ (cfg.(MaxCap) = 0 → is_Some cfg.(Factory) → is_Some cfg.(CloseFunc) →
     (invalid_config (NewPool cfg now e).1.2 = false ↔ cfg.(InitialCap) = 0)).
Proof.
  unfold code_rejects, NewPool.
  destruct (InitialCap cfg <? 0) eqn:H1; simpl;
    [apply Z.ltb_lt in H1; solve_cfg|].
  destruct (MaxCap cfg <? 0) eqn:H2; simpl;
    [apply Z.ltb_lt in H2; solve_cfg|].
  destruct (MaxCap cfg <? InitialCap cfg) eqn:H3; simpl;
    [apply Z.ltb_lt in H3; solve_cfg|].
  apply Z.ltb_ge in H1, H2, H3.
  destruct (Factory cfg) as [f|]; simpl; [|solve_cfg].
  destruct (CloseFunc cfg) as [c|]; simpl; [|solve_cfg].
  destruct (fill _ _ _ _) as [[[er|] cp'] e']; simpl; solve_cfg.
Qed.

Lemma NewPool_invalid_config_witness :
  (NewPool (config 0 0 fresh_factory) 0 env0).1.1 =
    Some (mkPool fresh_factory ok_close None [] [] 0 false 0 0 cachedOrNewConn)
  ∧ (invalid_config (NewPool (config 0 0 fresh_factory) 0 env0).1.2 = false
     ↔ InitialCap (config 0 0 fresh_factory) = 0).
Proof.
  split; [reflexivity|].
  apply (NewPool_invalid_config (config 0 0 fresh_factory) 0 env0);
    simpl; eauto.
Defined.

(** ** Release *)

(** C4, as stated, fails: on the pool with one idle resource the second
    [Release] calls the closer again on that resource. *)
Lemma Release_twice_closes_twice :
  let '(cp1, e1) := Release one_idle.1 one_idle.2 in
  let '(cp2, e2) := Release cp1 e1 in
  cp1.(closed) = true
  ∧ e1.(closeLog) = [Ref 0]
  ∧ e2.(closeLog) = [Ref 0; Ref 0]
  ∧ e2.(closeLog) ≠ e1.(closeLog).
Proof. vm_compute. repeat split; discriminate. Qed.

(** C4, amended: a second [Release] leaves the pool struct as the first one
    left it ([closed] stays true; idle set, wait queue and [numOpen] are
    untouched) and calls the closer once more on every resource of the idle
    set, in order; it makes no closer call exactly when the idle set is
    empty. *)
Theorem Release_again (cp : channelPool) (e : Env) :
  let '(cp1, e1) := Release cp e in
  let '(cp2, e2) := Release cp1 e1 in
  cp2 = cp1
  ∧ e2 = log_closes (map conn cp.(freeConn)) e1
  ∧ e2.(closeLog) = e1.(closeLog) ++ map conn cp1.(freeConn)
  ∧ (e2.(closeLog) = e1.(closeLog) ↔ cp1.(freeConn) = []).
Proof.
  simpl. repeat split.
  - intros H. destruct (freeConn cp) as [|ic l]; [done|].
    apply (f_equal length) in H. rewrite !length_app in H. simpl in H. lia.
  - intros ->. simpl. by rewrite !app_nil_r.
Qed.

(** A receive blocks exactly on a nil channel and on an open, empty one. *)
Lemma Get_recv_None (req : nat) (e : Env) :
  Get_recv req e = None ↔
  e.(chans) !! req = None ∨ e.(chans) !! req = Some (mkChan None false).
Proof.
  unfold Get_recv.
  destruct (chans e !! req) as [[[ret|] []]|]; simpl; split; auto;
    try done; intros [?|?]; done.
Qed.

Lemma Get_recv_None_chans (req : nat) (e e' : Env) :
  e'.(chans) = e.(chans) → Get_recv req e = None → Get_recv req e' = None.
Proof. rewrite !Get_recv_None. by intros ->. Qed.

(** Once the pool is closed no call ever sends on, or closes, the channel of
    a caller that is still waiting. *)
Lemma step_closed_blocked (a : action) (s : Sys) (req : nat) :
  s.(pool).(closed) = true → Get_recv req s.(env) = None →
  (step a s).(pool).(closed) = true ∧ Get_recv req (step a s).(env) = None.
Proof.
  intros Hc Hb. unfold step. destruct (halted s); [done|].
  destruct a as [|now|r|now c|c|].
  - unfold Get_locked. rewrite Hc. done.
  - destruct (creating s); [done|]. unfold Get_create.
    destruct (factory (pool s) (factoryCalls (env s))) as [v [er|]];
      simpl; split; auto; by apply (Get_recv_None_chans req (env s)).
  - case_bool_decide; [|done].
    destruct (Get_recv r (env s)) as [[x e]|] eqn:Hr; [|done].
    simpl. split; [done|].
    assert (r ≠ req) as Hne by (intros ->; congruence).
    unfold Get_recv in Hr.
    destruct (chans (env s) !! r) as [ch|]; [|done].
    destruct (buf ch).
    + injection Hr as <- <-. apply Get_recv_None. simpl.
      rewrite lookup_insert_ne by done. by apply Get_recv_None.
    + destruct (chClosed ch); [|done]. by injection Hr as <- <-.
  - unfold Put. destruct (is_nil c); [done|]. rewrite Hc. simpl.
    split; [done|]. by apply (Get_recv_None_chans req (env s)).
  - unfold Close. destruct (is_nil c); [done|]. rewrite Hc. simpl.
    split; [done|]. by apply (Get_recv_None_chans req (env s)).
  - simpl. split; [done|]. by apply Release_keeps_blocked.
Qed.

Lemma run_closed_blocked (acts : list action) (s : Sys) (req : nat) :
  s.(pool).(closed) = true → Get_recv req s.(env) = None →
  Get_recv req (run acts s).(env) = None.
Proof.
  revert s. induction acts as [|a acts IH]; intros s Hc Hb; [done|].
  simpl. destruct (step_closed_blocked a s req Hc Hb). by apply IH.
Qed.

(** C1 at a failing input.  [Release] on [one_waiter] closes the pool, and
    would close every idle resource (here there is none), but the request
    channel of the waiting caller is left in the wait queue, open and empty:
    the receive of that caller still blocks, and it blocks after every
    further sequence of calls.  The caller never returns [ErrPoolClosed]. *)
Theorem Release_leaves_waiter_blocked :
  let s := step ARelease one_waiter in
  one_waiter.(waiting) = [0%nat]
  ∧ s.(pool).(closed) = true
  ∧ s.(pool).(waitingQueue) = [0%nat]
  ∧ s.(env).(chans) !! 0%nat = Some (mkChan None false)
  ∧ s.(waiting) = [0%nat]
  ∧ ∀ acts, Get_recv 0%nat (run acts s).(env) = None.
Proof.
  do 5 (split; [vm_compute; reflexivity|]).
  intros acts. apply run_closed_blocked; vm_compute; reflexivity.
Qed.

(** ** Get and Put on the idle set *)

(** An open pool with a resource in its idle set hands out the front one,
    whatever the time of the call and the stamp of the resource. *)
Lemma Get_idle (now : Z) (cp : channelPool) (e : Env) (ic : idleConn)
      (rest : list idleConn) :
  cp.(closed) = false → cp.(strategy) = cachedOrNewConn →
  cp.(freeConn) = ic :: rest →
  Get now cp e = (Returned (ic.(conn), None), with_freeConn rest cp, e).
Proof. unfold Get, Get_locked. by intros -> -> ->. Qed.

(** An accepted [Put] on a pool without waiters appends to the idle set,
    whatever [maxIdle] is. *)
Lemma Put_empty_queue (now : Z) (c : iface) (cp : channelPool) (e : Env) :
  is_nil c = false → cp.(closed) = false → over_capacity cp = false →
  cp.(waitingQueue) = [] →
  Put now c cp e =
    (Returned None,
     with_freeConn (cp.(freeConn) ++ [mkIdleConn c false now]) cp, e).
Proof. unfold Put, over_capacity. by intros -> -> -> ->. Qed.

(** C2 at a failing input.  On [full_idle] the pool is open, nobody waits and
    the idle set is full ([maxIdle = 1]); [Put] of [Ref 1] appends it to the
    idle set, which then holds two resources; the closer is not called and
    [numOpen] stays 2. *)
Theorem Put_ignores_maxIdle :
  let '(cp, e) := full_idle in
  let '(r, cp', e') := Put 4 (Ref 1) cp e in
  cp.(closed) = false ∧ cp.(waitingQueue) = [] ∧ cp.(maxIdle) = 1
  ∧ map conn cp.(freeConn) = [Ref 0] ∧ cp.(numOpen) = 2
  ∧ r = Returned None
  ∧ map conn cp'.(freeConn) = [Ref 0; Ref 1]
  ∧ Z.of_nat (length cp'.(freeConn)) > cp'.(maxIdle)
  ∧ cp'.(numOpen) = 2
  ∧ e'.(closeLog) = [].
Proof. vm_compute. repeat split. Qed.

(** C3 at a failing input.  The pool is built at time 0 from
    [timeout_config]; its idle resource [Ref 0] is stamped 0.  A [Get] at
    time 100 finds it idle for longer than the timeout and returns it all the
    same: the closer is not called, [numOpen] is not decremented and the
    factory is not asked for a fresh resource. *)
Theorem Get_returns_expired :
  let '(cp, e) := pool_of timeout_config 0 in
  let '(r, cp', e') := Get 100 cp e in
  cp.(freeConn) = [mkIdleConn (Ref 0) false 0]
  ∧ 100 - 0 > timeout_config.(IdleTimeout)
  ∧ r = Returned (Ref 0, None)
  ∧ e'.(closeLog) = []
  ∧ cp'.(numOpen) = cp.(numOpen)
  ∧ e'.(factoryCalls) = e.(factoryCalls).
Proof. vm_compute. repeat split. Qed.

(** ** The bound on [numOpen] *)

Lemma step_maxOpen (a : action) (s : Sys) :
  (step a s).(pool).(maxOpen) = s.(pool).(maxOpen).
Proof.
  unfold step. destruct (halted s); [done|].
  destruct a as [|now|req|now c|c|]; simpl.
  - unfold Get_locked. destruct (closed (pool s)); [done|].
    destruct (is_cachedOrNew _), (freeConn (pool s)); try done;
      by destruct (_ && _).
  - destruct (creating s); [done|]. unfold Get_create.
    by destruct (factory (pool s) (factoryCalls (env s))) as [v [er|]].
  - case_bool_decide; [|done]. by destruct (Get_recv req (env s)) as [[r e]|].
  - unfold Put. destruct (is_nil c); [done|].
    destruct (closed (pool s)); [done|]. destruct (_ && _); [done|].
    destruct (waitingQueue (pool s)); [done|]. by destruct (send _ _ _).
  - unfold Close. by destruct (is_nil c), (closed (pool s)).
  - done.
Qed.

Lemma run_maxOpen (acts : list action) (s : Sys) :
  (run acts s).(pool).(maxOpen) = s.(pool).(maxOpen).
Proof.
  revert s. induction acts as [|a acts IH]; intros s; [done|].
  simpl. fold (run acts (step a s)). by rewrite IH, step_maxOpen.
Qed.

(** C6: on a bounded pool made by [NewPool] ([0 < MaxCap], a Go [int]),
    after every sequence of [Get] and [Put] steps of any number of callers,
    in any interleaving, [numOpen] is at least 0 and at most [maxOpen]. *)
Theorem numOpen_bounded (cfg : Config) (now : Z) (e e' : Env)
        (cp : channelPool) (acts : list action) :
  NewPool cfg now e = (Some cp, None, e') →
  0 < cfg.(MaxCap) < 2^63 →
  forallb is_get_put acts = true →
  let s := run acts (boot cp e') in
  0 <= s.(pool).(numOpen) <= s.(pool).(maxOpen)
  ∧ s.(pool).(maxOpen) = cfg.(MaxCap).
Proof.
  intros HN Hcap Hacts s.
  apply NewPool_ok in HN as (Hi & Hn & Hm & _).
  assert (count_inv s) as [Hb Hl Hu].
  { apply run_count_inv; [done|]. constructor; simpl; lia. }
  split; [lia|]. unfold s. by rewrite run_maxOpen.
Qed.

Lemma numOpen_bounded_witness :
  let cfg := config 1 2 fresh_factory in
  let acts := [AGet; AGet; ACreate 1; AGet; APut 2 (Ref 0); ARecv 0%nat;
               APut 3 (Ref 1); APut 4 (Ref 0)] in
  let s := run acts (boot (pool_of cfg 0).1 (pool_of cfg 0).2) in
  0 <= s.(pool).(numOpen) <= s.(pool).(maxOpen)
  ∧ s.(pool).(maxOpen) = cfg.(MaxCap).
Proof.
  intros cfg acts.
  apply (numOpen_bounded cfg 0 env0 (pool_of cfg 0).2 (pool_of cfg 0).1 acts).
  - reflexivity.
  - simpl. lia.
  - reflexivity.
Defined.

(** ** The creation path of Get *)

Lemma Get_locked_create (cp : channelPool) (e : Env) :
  (Get_locked cp e).1.1 = GetCreate →
  Get_locked cp e = (GetCreate, with_numOpen (incr cp.(numOpen)) cp, e).
Proof.
  unfold Get_locked, make_chan.
  destruct (closed cp); [done|].
  destruct (is_cachedOrNew (strategy cp)), (freeConn cp); try done;
    by destruct ((0 <? maxOpen cp) && (maxOpen cp <=? numOpen cp)).
Qed.

(** C7: when [Get] takes the creation path and the factory fails, [Get]
    returns the error of the factory and leaves the pool as it found it,
    [numOpen] included; the only trace is the call of the factory.  With
    [MaxCap = 1] and a factory that fails, [Get] returns the error and
    [numOpen] is 0 again, and once the factory works the next [Get]
    succeeds. *)
Theorem Get_factory_failure :
  (∀ (now : Z) (cp : channelPool) (e : Env) (v : iface) (er : error),
     (Get_locked cp e).1.1 = GetCreate →
     in_int cp.(numOpen) →
     cp.(factory) e.(factoryCalls) = (v, Some er) →
     Get now cp e = (Returned (Nil, Some er), cp, count_factory e))
  ∧ (let '(cp, e) := pool_of (config 0 1 failing_factory) 0 in
     cp.(maxOpen) = 1 ∧ cp.(numOpen) = 0
     ∧ Get 1 cp e = (Returned (Nil, Some (ErrUser 0)), cp, count_factory e))
  ∧ (let '(cp, e) := pool_of (config 0 1 repaired_factory) 0 in
     let '(r1, cp1, e1) := Get 1 cp e in
     let '(r2, cp2, e2) := Get 2 cp1 e1 in
     r1 = Returned (Nil, Some (ErrUser 0)) ∧ cp1.(numOpen) = 0
     ∧ r2 = Returned (Ref 1, None) ∧ cp2.(numOpen) = 1).
Proof.
  split; [|split; vm_compute; repeat split].
  intros now cp e v er Hpath Hint Hf. unfold Get.
  rewrite (Get_locked_create _ _ Hpath).
  unfold Get_create. simpl. rewrite Hf, decr_incr by done.
  by destruct cp.
Qed.

Lemma Get_factory_failure_witness :
  let '(cp, e) := pool_of (config 0 1 failing_factory) 0 in
  Get 5 cp e = (Returned (Nil, Some (ErrUser 0)), cp, count_factory e).
Proof.
  apply (proj1 Get_factory_failure 5
           (pool_of (config 0 1 failing_factory) 0).1
           (pool_of (config 0 1 failing_factory) 0).2 Nil (ErrUser 0)).
  - reflexivity.
  - unfold in_int. simpl. lia.
  - reflexivity.
Defined.

(** ** Put with callers waiting *)

(** Every pool made by [NewPool] in the initial environment keeps the
    channels of its wait queue open and empty, whatever the callers do. *)
Lemma reachable_chan_inv (cfg : Config) (now : Z) (cp : channelPool)
      (e : Env) (acts : list action) :
  NewPool cfg now env0 = (Some cp, None, e) →
  chan_inv (run acts (boot cp e)).
Proof.
  intros HN. apply run_chan_inv.
  apply NewPool_ok in HN as (_ & _ & _ & _ & _ & Hq & _ & _ & Hch & _).
  apply boot_chan_inv; [done|].
  intros req ch. rewrite Hch. simpl. by rewrite lookup_empty.
Qed.

(** C8: a [Put] that passes the guards of [Put] (a non-nil resource, the
    pool open and not over its capacity) and finds a caller waiting takes the
    front channel off the wait queue and sends the resource on it: the
    receive of that caller yields this very resource, the other channels and
    the idle set are untouched, the closer is not called. *)
Theorem Put_hands_to_oldest_waiter (now : Z) (c : iface) (cp : channelPool)
        (e : Env) (req : nat) (rest : list nat) :
  is_nil c = false → cp.(closed) = false → over_capacity cp = false →
  cp.(waitingQueue) = req :: rest →
  e.(chans) !! req = Some (mkChan None false) →
  let '(r, cp', e') := Put now c cp e in
  r = Returned None
  ∧ cp' = with_waitingQueue rest cp
  ∧ cp'.(freeConn) = cp.(freeConn)
  ∧ cp'.(numOpen) = cp.(numOpen)
  ∧ e'.(chans) !! req = Some (mkChan (Some (mkIdleConn c true now)) false)
  ∧ (∃ e'', Get_recv req e' = Some ((c, None), e''))
  ∧ (∀ r', r' ≠ req → e'.(chans) !! r' = e.(chans) !! r')
  ∧ e'.(closeLog) = e.(closeLog).
Proof.
  intros Hc Ho Hover Hq Hch. unfold Put, over_capacity in *.
  rewrite Hc, Ho, Hover, Hq, (send_queue_head _ _ _ Hch).
  repeat split; simpl.
  - by rewrite lookup_insert_eq.
  - unfold Get_recv. simpl. rewrite lookup_insert_eq. simpl. eauto.
  - intros r' Hne. by rewrite lookup_insert_ne.
Qed.

Lemma Put_hands_to_oldest_waiter_witness :
  let '(r, cp', e') := Put 9 (Ref 0) two_waiters.(pool) two_waiters.(env) in
  r = Returned None
  ∧ cp' = with_waitingQueue [1%nat] two_waiters.(pool)
  ∧ cp'.(freeConn) = two_waiters.(pool).(freeConn)
  ∧ cp'.(numOpen) = two_waiters.(pool).(numOpen)
  ∧ e'.(chans) !! 0%nat = Some (mkChan (Some (mkIdleConn (Ref 0) true 9)) false)
  ∧ (∃ e'', Get_recv 0%nat e' = Some ((Ref 0, None), e''))
  ∧ (∀ r', r' ≠ 0%nat → e'.(chans) !! r' = two_waiters.(env).(chans) !! r')
  ∧ e'.(closeLog) = two_waiters.(env).(closeLog).
Proof.
  apply (Put_hands_to_oldest_waiter 9 (Ref 0) two_waiters.(pool)
           two_waiters.(env) 0%nat [1%nat]); vm_compute; reflexivity.
Defined.

(** ** Get, Put, Get *)

Lemma Get_returned (now : Z) (cp cp1 : channelPool) (e e1 : Env)
      (r : iface * option error) :
  Get now cp e = (Returned r, cp1, e1) →
  cp1.(strategy) = cp.(strategy) ∧ cp1.(closed) = cp.(closed).
Proof.
  unfold Get.
  destruct (Get_locked cp e) as [[g cp0] e0] eqn:HG.
  assert (strategy cp0 = strategy cp ∧ closed cp0 = closed cp) as [Hs Hc].
  { unfold Get_locked, make_chan in HG.
    destruct (closed cp) eqn:Hcl; [by injection HG as <- <- <-|].
    destruct (is_cachedOrNew (strategy cp)), (freeConn cp);
      try (by injection HG as <- <- <-);
      destruct ((0 <? maxOpen cp) && (maxOpen cp <=? numOpen cp));
      by injection HG as <- <- <-. }
  destruct g as [r0|req|].
  - by intros [= <- <- <-].
  - destruct (Get_recv req e0) as [[r0 e2]|]; [|done]. by intros [= <- <- <-].
  - unfold Get_create.
    destruct (factory cp0 (factoryCalls e0)) as [v [er|]];
      by intros [= <- <- <-].
Qed.

(** C9, as stated, fails: on [two_idle], [Get] returns [Ref 0]; it is put
    back at once, behind [Ref 1]; the next [Get] returns [Ref 1]. *)
Lemma Get_Put_Get_other :
  let '(cp, e) := two_idle in
  let '(r1, cp1, e1) := Get 1 cp e in
  let '(r2, cp2, e2) := Put 2 (Ref 0) cp1 e1 in
  let '(r3, cp3, e3) := Get 3 cp2 e2 in
  r1 = Returned (Ref 0, None) ∧ r2 = Returned None
  ∧ r3 = Returned (Ref 1, None) ∧ r3 ≠ r1.
Proof. vm_compute. repeat split; discriminate. Qed.

(** C9, amended: when [Get] returns a resource and leaves no caller
    waiting, and the resource is put back at once, the next [Get] returns the
    front of the idle set with the resource appended at its end: the very
    same resource when the first [Get] left the idle set empty, the oldest of
    the other idle resources otherwise. *)
Theorem Get_Put_Get (now1 now2 now3 : Z) (cp cp1 cp2 : channelPool)
        (e e1 e2 : Env) (c : iface) :
  cp.(strategy) = cachedOrNewConn →
  Get now1 cp e = (Returned (c, None), cp1, e1) →
  cp1.(waitingQueue) = [] →
  Put now2 c cp1 e1 = (Returned None, cp2, e2) →
  (cp1.(freeConn) = [] → Get now3 cp2 e2 = (Returned (c, None), cp1, e1))
  ∧ (∀ ic rest, cp1.(freeConn) = ic :: rest →
       Get now3 cp2 e2 =
         (Returned (ic.(conn), None),
          with_freeConn (rest ++ [mkIdleConn c false now2]) cp1, e1)).
Proof.
  intros Hs HG Hq HP.
  apply Get_returned in HG as [Hs1 _]. rewrite Hs in Hs1.
  unfold Put in HP.
  destruct (is_nil c); [done|].
  destruct (closed cp1) eqn:Hc; [done|].
  destruct ((0 <? maxOpen cp1) && (maxOpen cp1 <? numOpen cp1)); [done|].
  rewrite Hq in HP. injection HP as <- <-.
  split.
  - intros Hf. rewrite (Get_idle now3 _ _ (mkIdleConn c false now2) []);
      simpl; try done; [|by rewrite Hf].
    destruct cp1; simpl in *; by subst.
  - intros ic rest Hf.
    rewrite (Get_idle now3 _ _ ic (rest ++ [mkIdleConn c false now2]));
      simpl; try done. by rewrite Hf.
Qed.

Lemma Get_Put_Get_witness :
  let '(cp, e) := one_idle in
  let '(_, cp1, e1) := Get 1 cp e in
  let '(_, cp2, e2) := Put 2 (Ref 0) cp1 e1 in
  Get 3 cp2 e2 = (Returned (Ref 0, None), cp1, e1).
Proof.
  apply (proj1 (Get_Put_Get 1 2 3 one_idle.1 (Get 1 one_idle.1 one_idle.2).1.2
                  (Put 2 (Ref 0) (Get 1 one_idle.1 one_idle.2).1.2
                       (Get 1 one_idle.1 one_idle.2).2).1.2
                  one_idle.2 (Get 1 one_idle.1 one_idle.2).2
                  (Put 2 (Ref 0) (Get 1 one_idle.1 one_idle.2).1.2
                       (Get 1 one_idle.1 one_idle.2).2).2
                  (Ref 0)
                  eq_refl eq_refl eq_refl eq_refl)).
  reflexivity.
Defined.

(** ** Close *)

(** C10: on an open pool [Close] of a non-nil value calls the closer on it
    and decrements [numOpen], whatever [numOpen] is and wherever the value
    comes from: by exactly one (unless [numOpen] is the least [int], where
    Go's [--] wraps).  On the new pool of [MaxCap = 1] without any resource,
    [Close] of a value the pool never made leaves [numOpen = -1]. *)
Theorem Close_decrements :
  (∀ (c : iface) (cp : channelPool) (e : Env),
     is_nil c = false → cp.(closed) = false →
     Close c cp e =
       (cp.(close) c, with_numOpen (decr cp.(numOpen)) cp, log_close c e)
     ∧ (- 2^63 < cp.(numOpen) < 2^63 →
        (Close c cp e).1.2.(numOpen) = cp.(numOpen) - 1))
  ∧ (let s := run [AClose (Ref 7)]
                  (boot (pool_of (config 0 1 fresh_factory) 0).1
                        (pool_of (config 0 1 fresh_factory) 0).2) in
     (pool_of (config 0 1 fresh_factory) 0).1.(numOpen) = 0
     ∧ s.(pool).(numOpen) = -1 ∧ s.(pool).(numOpen) < 0
     ∧ s.(env).(closeLog) = [Ref 7]).
Proof.
  split; [|vm_compute; repeat split].
  intros c cp e Hc Ho. unfold Close. rewrite Hc, Ho. split; [done|].
  intros Hr. simpl. apply decr_small; unfold in_int; lia.
Qed.

Lemma Close_decrements_witness :
  let '(cp, e) := one_idle in
  Close (Ref 42) cp e = (None, with_numOpen 0 cp, log_close (Ref 42) e)
  ∧ (Close (Ref 42) cp e).1.2.(numOpen) = cp.(numOpen) - 1.
Proof.
  pose proof (proj1 Close_decrements (Ref 42) one_idle.1 one_idle.2
                eq_refl eq_refl) as [H1 H2].
  split; [exact H1|]. apply H2. vm_compute. split; reflexivity.
Defined.

(** * Further properties of the package *)

(** ** NewPool: filling the pool *)








(** ** A closed pool *)

Lemma step_closed (a : action) (s : Sys) :
  s.(pool).(closed) = true → (step a s).(pool).(closed) = true.
Proof.
  intros Hc. unfold step. destruct (halted s); [done|].
  destruct a as [|now|r|now c|c|]; simpl.
  - unfold Get_locked. by rewrite Hc.
  - destruct (creating s); [done|]. unfold Get_create.
    by destruct (factory (pool s) (factoryCalls (env s))) as [v [er|]].
  - case_bool_decide; [|done]. by destruct (Get_recv r (env s)) as [[x e]|].
  - unfold Put. destruct (is_nil c); [done|]. by rewrite Hc.
  - unfold Close. destruct (is_nil c); [done|]. by rewrite Hc.
  - done.
Qed.

Lemma run_closed (acts : list action) (s : Sys) :
  s.(pool).(closed) = true → (run acts s).(pool).(closed) = true.
Proof.
  revert s. induction acts as [|a acts IH]; intros s Hc; [done|].
  simpl. apply IH. by apply step_closed.
Qed.

(** X3: [closed] never goes back to false.  Once the pool is closed, after
    every further sequence of calls of any callers, [Get] returns
    [ErrPoolClosed] and changes nothing, and [Put] and [Close] of a non-nil
    value call the closer on it once, return [ErrPoolClosedAndClose] and
    leave the pool struct as it is. *)
Theorem closed_pool_rejects (s : Sys) (acts : list action) (now : Z)
        (c : iface) :
  s.(pool).(closed) = true → is_nil c = false →
  let s' := run acts s in
  s'.(pool).(closed) = true
  ∧ Get now s'.(pool) s'.(env)
    = (Returned (Nil, Some ErrPoolClosed), s'.(pool), s'.(env))
  ∧ Put now c s'.(pool) s'.(env)
    = (Returned (Some ErrPoolClosedAndClose), s'.(pool), log_close c s'.(env))
  ∧ Close c s'.(pool) s'.(env)
    = (Some ErrPoolClosedAndClose, s'.(pool), log_close c s'.(env)).
Proof.
  intros Hc Hn s'. pose proof (run_closed acts s Hc) as Hc'. fold s' in Hc'.
  unfold Get, Get_locked, Put, Close. by rewrite Hc', Hn.
Qed.

Lemma closed_pool_rejects_witness :
  let s' := run [AGet; APut 3 (Ref 5); ARecv 0%nat; AClose (Ref 0)]
                (step ARelease one_waiter) in
  s'.(pool).(closed) = true
  ∧ Get 4 s'.(pool) s'.(env)
    = (Returned (Nil, Some ErrPoolClosed), s'.(pool), s'.(env))
  ∧ Put 4 (Ref 1) s'.(pool) s'.(env)
    = (Returned (Some ErrPoolClosedAndClose), s'.(pool), log_close (Ref 1) s'.(env))
  ∧ Close (Ref 1) s'.(pool) s'.(env)
    = (Some ErrPoolClosedAndClose, s'.(pool), log_close (Ref 1) s'.(env)).
Proof.
  apply (closed_pool_rejects (step ARelease one_waiter)
           [AGet; APut 3 (Ref 5); ARecv 0%nat; AClose (Ref 0)] 4 (Ref 1));
    reflexivity.
Defined.




(** ** Ping *)

(** X5: on a pool made by [NewPool], [Ping] of a non-nil value is the call
    of the [Ping] callback of the configuration, and [ErrInvalidPingFunc]
    when the configuration has none; [Ping] of nil is [ErrConnIsNil] in both
    cases. *)
Theorem Ping_of_NewPool (cfg : Config) (now : Z) (e e' : Env)
        (cp : channelPool) (c : iface) :
  NewPool cfg now e = (Some cp, None, e') →
  Ping c cp =
    if is_nil c then Some ErrConnIsNil
    else match cfg.(PingFunc) with
         | None => Some ErrInvalidPingFunc
         | Some p => p c
         end.
Proof.
  unfold NewPool.
  destruct (_ || _); [done|].
  destruct (Factory cfg) as [f|]; [|done].
  destruct (CloseFunc cfg) as [cl|]; [|done].
  destruct (fill _ _ _ _) as [[[er|] cp'] e''] eqn:Hfill; [done|].
  intros [= <- <-]. apply fill_ok in Hfill as (Hcp & _).
  unfold Ping. rewrite Hcp. reflexivity.
Qed.

Lemma Ping_of_NewPool_witness :
  Ping (Ref 3) one_idle.1 = Some ErrInvalidPingFunc.
Proof.
  apply (Ping_of_NewPool (config 1 1 fresh_factory) 0 env0 one_idle.2
           one_idle.1 (Ref 3)).
  reflexivity.
Defined.

(** ** Put *)

(** X6: [Put] never changes [numOpen], [maxOpen] or [closed], whatever it
    returns, and it calls the closer only on a closed pool. *)
Theorem Put_keeps_accounting (now : Z) (c : iface) (cp : channelPool) (e : Env) :
  let '(r, cp', e') := Put now c cp e in
  cp'.(numOpen) = cp.(numOpen)
  ∧ cp'.(maxOpen) = cp.(maxOpen)
  ∧ cp'.(closed) = cp.(closed)
  ∧ (cp.(closed) = false → e'.(closeLog) = e.(closeLog)).
Proof.
  unfold Put, send.
  destruct (is_nil c); [done|].
  destruct (closed cp) eqn:Hc; [done|].
  destruct (_ && _); [done|].
  destruct (waitingQueue cp) as [|req rest]; [done|].
  destruct (chans e !! req) as [[[v|] []]|]; done.
Qed.

Lemma Put_keeps_accounting_witness :
  let '(r, cp', e') := Put 9 (Ref 0) two_waiters.(pool) two_waiters.(env) in
  cp'.(numOpen) = 1 ∧ e'.(closeLog) = [].
Proof.
  pose proof (Put_keeps_accounting 9 (Ref 0) two_waiters.(pool)
                two_waiters.(env)) as H.
  destruct (Put 9 (Ref 0) (pool two_waiters) (env two_waiters)) as [[r cp'] e'].
  destruct H as (Hn & _ & _ & Hl). split; [exact Hn | exact (Hl eq_refl)].
Defined.

(** X7: on a pool made by [NewPool] ([MaxCap] a Go [int]), bounded or not,
    after every sequence of [Get] and [Put] steps the pool is not over its
    capacity, so that no [Put] returns [ErrOpenNumber]. *)
Theorem Put_never_ErrOpenNumber (cfg : Config) (now : Z) (e e' : Env)
        (cp : channelPool) (acts : list action) (now' : Z) (c : iface) :
  NewPool cfg now e = (Some cp, None, e') →
  cfg.(MaxCap) < 2^63 →
  forallb is_get_put acts = true →
  let s := run acts (boot cp e') in
  over_capacity s.(pool) = false
  ∧ (Put now' c s.(pool) s.(env)).1.1 ≠ Returned (Some ErrOpenNumber).
Proof.
  intros HN Hcap Hacts s.
  assert (over_capacity (pool s) = false) as Hover.
  { unfold over_capacity.
    destruct (0 <? maxOpen (pool s)) eqn:H0; [|done]. simpl.
    apply Z.ltb_lt in H0. unfold s in H0. rewrite run_maxOpen in H0.
    simpl in H0.
    pose proof (NewPool_ok _ _ _ _ _ HN) as (Hi & Hn & Hm & _).
    assert (count_inv s) as [Hb Hl Hu].
    { apply run_count_inv; [done|]. constructor; simpl; lia. }
    apply Z.ltb_ge. lia. }
  split; [done|].
  unfold Put. unfold over_capacity in Hover. rewrite Hover.
  destruct (is_nil c); [done|]. destruct (closed (pool s)); [done|].
  destruct (waitingQueue (pool s)); [done|]. by destruct (send _ _ _).
Qed.

Lemma Put_never_ErrOpenNumber_witness :
  let cfg := config 1 2 fresh_factory in
  let s := run [AGet; AGet; ACreate 1; AGet]
               (boot (pool_of cfg 0).1 (pool_of cfg 0).2) in
  over_capacity s.(pool) = false
  ∧ (Put 5 (Ref 0) s.(pool) s.(env)).1.1 ≠ Returned (Some ErrOpenNumber).
Proof.
  intros cfg.
  apply (Put_never_ErrOpenNumber cfg 0 env0 (pool_of cfg 0).2 (pool_of cfg 0).1
           [AGet; AGet; ACreate 1; AGet] 5 (Ref 0)).
  - reflexivity.
  - simpl. lia.
  - reflexivity.
Defined.

(** X8: on a pool made by [NewPool] in the initial environment, whatever
    the callers do ([Get], [Put], [Close], [Release], in any interleaving):
    the wait queue never holds a channel twice, every channel of the wait
    queue is open and empty, no channel is ever closed, and therefore no
    [Put] ever blocks while it holds the lock or panics on a closed
    channel. *)
Theorem Put_never_blocks (cfg : Config) (now : Z) (cp : channelPool)
        (e : Env) (acts : list action) (now' : Z) (c : iface) :
  NewPool cfg now env0 = (Some cp, None, e) →
  let s := run acts (boot cp e) in
  s.(halted) = false
  ∧ NoDup s.(pool).(waitingQueue)
  ∧ (∀ req, req ∈ s.(pool).(waitingQueue) →
            s.(env).(chans) !! req = Some (mkChan None false))
  ∧ (∀ req ch, s.(env).(chans) !! req = Some ch → ch.(chClosed) = false)
  ∧ (∃ r, (Put now' c s.(pool) s.(env)).1.1 = Returned r).
Proof.
  intros HN s.
  pose proof (reachable_chan_inv cfg now cp e acts HN) as Hinv. fold s in Hinv.
  pose proof Hinv as [Hr Hnd Hq Ha].
  repeat split; try done.
  - intros req ch Hl. by apply Ha in Hl as [_ ?].
  - pose proof (Put_chan_inv s now' c Hinv) as [Hr' _ _ _].
    unfold step in Hr'. rewrite Hr in Hr'.
    destruct (Put now' c (pool s) (env s)) as [[[r| |] cp'] e'];
      simpl in *; eauto; discriminate.
Qed.

Lemma Put_never_blocks_witness :
  let s := two_waiters in
  s.(halted) = false
  ∧ NoDup s.(pool).(waitingQueue)
  ∧ (∀ req, req ∈ s.(pool).(waitingQueue) →
            s.(env).(chans) !! req = Some (mkChan None false))
  ∧ (∀ req ch, s.(env).(chans) !! req = Some ch → ch.(chClosed) = false)
  ∧ (∃ r, (Put 5 (Ref 0) s.(pool) s.(env)).1.1 = Returned r).
Proof.
  apply (Put_never_blocks (config 1 1 fresh_factory) 0 one_idle.1 one_idle.2
           [AGet; AGet; AGet] 5 (Ref 0)).
  reflexivity.
Defined.

(** ** The idle set is a queue *)

Lemma Gets_idle (now : Z) (l : list idleConn) (cp : channelPool) (e : Env) :
  cp.(closed) = false → cp.(strategy) = cachedOrNewConn →
  cp.(freeConn) = l →
  Gets now (length l) cp e =
    (map (λ ic, Returned (ic.(conn), None)) l, with_freeConn [] cp, e).
Proof.
  revert cp. induction l as [|ic l IH]; intros cp Hc Hs Hf; simpl.
  - destruct cp; simpl in *; by subst.
  - rewrite (Get_idle now cp e ic l) by done.
    rewrite (IH (with_freeConn l cp)) by done. reflexivity.
Qed.

Lemma Puts_idle (now : Z) (cs : list iface) (cp : channelPool) (e : Env) :
  cp.(closed) = false → over_capacity cp = false → cp.(waitingQueue) = [] →
  Forall (λ c, is_nil c = false) cs →
  Puts now cs cp e =
    (map (λ _, Returned None) cs,
     with_freeConn (cp.(freeConn) ++ map (λ c, mkIdleConn c false now) cs) cp,
     e).
Proof.
  intros Hc Ho Hq Hcs. revert cp Hc Ho Hq.
  induction Hcs as [|c cs Hn Hcs IH]; intros cp Hc Ho Hq; simpl.
  - rewrite app_nil_r. by destruct cp.
  - rewrite Put_empty_queue by done.
    rewrite IH by done. simpl. rewrite <- app_assoc. reflexivity.
Qed.

(** X9: the idle set is first in, first out.  On an open pool without
    waiters, not over its capacity and with an empty idle set, when a caller
    puts the non-nil values [cs] one after the other, every [Put] returns nil,
    and the same number of [Get] then return these very values in the order
    in which they were put, without calling the factory, and leave the pool
    and its environment as they were before the first [Put]. *)
Theorem Puts_then_Gets (now now' : Z) (cs : list iface) (cp : channelPool)
        (e : Env) :
  cp.(closed) = false → cp.(strategy) = cachedOrNewConn →
  over_capacity cp = false → cp.(waitingQueue) = [] → cp.(freeConn) = [] →
  Forall (λ c, is_nil c = false) cs →
  let '(rs, cp1, e1) := Puts now cs cp e in
  rs = map (λ _, Returned None) cs
  ∧ Gets now' (length cs) cp1 e1 =
      (map (λ c, Returned (c, None)) cs, cp, e).
Proof.
  intros Hc Hs Ho Hq Hf Hcs.
  rewrite Puts_idle by auto. split; [done|].
  rewrite Hf. simpl.
  pose proof (Gets_idle now' (map (λ c, mkIdleConn c false now) cs)
                (with_freeConn (map (λ c, mkIdleConn c false now) cs) cp) e
                Hc Hs eq_refl) as HG.
  rewrite length_map in HG. rewrite HG. rewrite map_map. simpl.
  f_equal. f_equal. destruct cp; simpl in *; by subst.
Qed.

Lemma Puts_then_Gets_witness :
  let cp := (pool_of (config 0 3 fresh_factory) 0).1 in
  let e := (pool_of (config 0 3 fresh_factory) 0).2 in
  let '(rs, cp1, e1) := Puts 1 [Ref 4; Ref 2; Ref 9] cp e in
  rs = [Returned None; Returned None; Returned None]
  ∧ Gets 2 3 cp1 e1 =
      ([Returned (Ref 4, None); Returned (Ref 2, None); Returned (Ref 9, None)],
       cp, e).
Proof.
  apply (Puts_then_Gets 1 2 [Ref 4; Ref 2; Ref 9]
           (pool_of (config 0 3 fresh_factory) 0).1
           (pool_of (config 0 3 fresh_factory) 0).2);
    try reflexivity.
  repeat constructor.
Defined.

(** ** The wait queue is a queue *)

Lemma Put_to_waiter (now : Z) (c : iface) (cp : channelPool) (e : Env)
      (req : nat) (rest : list nat) :
  is_nil c = false → cp.(closed) = false → over_capacity cp = false →
  cp.(waitingQueue) = req :: rest →
  e.(chans) !! req = Some (mkChan None false) →
  Put now c cp e =
    (Returned None, with_waitingQueue rest cp,
     with_chans (<[req := mkChan (Some (mkIdleConn c true now)) false]> e.(chans)) e).
Proof.
  intros Hc Ho Hover Hq Hch. unfold Put, over_capacity in *.
  by rewrite Hc, Ho, Hover, Hq, (send_queue_head _ _ _ Hch).
Qed.

Lemma Puts_waiters (now : Z) (cs : list iface) :
  ∀ (q : list nat) (cp : channelPool) (e : Env),
    cp.(closed) = false → over_capacity cp = false →
    cp.(waitingQueue) = q → NoDup q →
    (∀ r, r ∈ q → e.(chans) !! r = Some (mkChan None false)) →
    Forall (λ c, is_nil c = false) cs →
    (length cs <= length q)%nat →
    ∃ e',
      Puts now cs cp e =
        (map (λ _, Returned None) cs,
         with_waitingQueue (drop (length cs) q) cp, e')
      ∧ (∀ i c r, cs !! i = Some c → q !! i = Some r →
           e'.(chans) !! r = Some (mkChan (Some (mkIdleConn c true now)) false))
      ∧ (∀ r, r ∉ take (length cs) q → e'.(chans) !! r = e.(chans) !! r)
      ∧ e'.(closeLog) = e.(closeLog).
Proof.
  induction cs as [|c cs IH]; intros q cp e Hc Ho Hq Hnd Hch Hcs Hlen.
  - exists e. simpl. rewrite drop_0. repeat split; try done.
    rewrite <- Hq. by destruct cp.
  - destruct q as [|r0 q]; [simpl in Hlen; lia|].
    apply Forall_cons in Hcs as [Hn Hcs].
    apply NoDup_cons in Hnd as [Hnotin Hnd].
    pose proof (Put_to_waiter now c cp e r0 q Hn Hc Ho Hq
                  (Hch r0 ltac:(left))) as HP.
    simpl. rewrite HP.
    set (e1 := with_chans
                 (<[r0 := mkChan (Some (mkIdleConn c true now)) false]> (chans e)) e).
    assert (chans e1 !! r0 = Some (mkChan (Some (mkIdleConn c true now)) false))
      as Hr0 by (simpl; by rewrite lookup_insert_eq).
    assert (∀ r', r' ≠ r0 → chans e1 !! r' = chans e !! r') as Hframe
      by (intros r' Hne; simpl; by rewrite lookup_insert_ne).
    assert (closeLog e1 = closeLog e) as Hlog by done.
    clearbody e1.
    destruct (IH q (with_waitingQueue q cp) e1) as (e' & HPs & Hdel & Hfr & Hlog');
      try done.
    { intros r Hin. rewrite Hframe; [apply Hch; by right|].
      intros ->. done. }
    { simpl in Hlen. lia. }
    exists e'. rewrite HPs. simpl. repeat split.
    + intros [|i] c' r; simpl.
      * intros [= <-] [= <-]. rewrite Hfr; [done|].
        intros Hin%elem_of_take. destruct Hin as (j & Hj & _).
        apply Hnotin. by eapply list_elem_of_lookup_2.
      * apply Hdel.
    + intros r Hr. rewrite Hfr.
      * apply Hframe. intros ->. apply Hr. by left.
      * intros Hin. apply Hr. by right.
    + congruence.
Qed.

(** X10: the wait queue is first in, first out.  On an open pool, not over
    its capacity, whose wait queue holds distinct, open and empty channels,
    when the non-nil values [cs] (no more of them than waiting callers) are
    put one after the other, every [Put] returns nil, the value number [i]
    lands on the channel of the caller number [i] of the queue (which
    receives this very value), the remaining callers stay in the queue in
    their order, the idle set is untouched and the closer is not called. *)
Theorem Puts_serve_waiters_in_order (now : Z) (cs : list iface) (q : list nat)
        (cp : channelPool) (e : Env) :
  cp.(closed) = false → over_capacity cp = false →
  cp.(waitingQueue) = q → NoDup q →
  (∀ r, r ∈ q → e.(chans) !! r = Some (mkChan None false)) →
  Forall (λ c, is_nil c = false) cs →
  (length cs <= length q)%nat →
  let '(rs, cp', e') := Puts now cs cp e in
  rs = map (λ _, Returned None) cs
  ∧ cp'.(waitingQueue) = drop (length cs) q
  ∧ cp'.(freeConn) = cp.(freeConn)
  ∧ (∀ i c r, cs !! i = Some c → q !! i = Some r →
       ∃ e'', Get_recv r e' = Some ((c, None), e''))
  ∧ (∀ r, r ∈ drop (length cs) q → Get_recv r e' = None)
  ∧ e'.(closeLog) = e.(closeLog).
Proof.
  intros Hc Ho Hq Hnd Hch Hcs Hlen.
  destruct (Puts_waiters now cs q cp e Hc Ho Hq Hnd Hch Hcs Hlen)
    as (e' & -> & Hdel & Hfr & Hlog).
  repeat split; try done.
  - intros i c r Hi Hr. unfold Get_recv. rewrite (Hdel i c r Hi Hr). simpl. eauto.
  - intros r Hin. apply Get_recv_None. right.
    rewrite Hfr.
    + apply Hch. rewrite <- (take_drop (length cs) q). apply elem_of_app. by right.
    + intros Hin'. rewrite <- (take_drop (length cs) q) in Hnd.
      apply NoDup_app in Hnd as (_ & Hdisj & _). by apply (Hdisj r).
Qed.

Lemma Puts_serve_waiters_in_order_witness :
  let '(rs, cp', e') := Puts 9 [Ref 0] two_waiters.(pool) two_waiters.(env) in
  rs = [Returned None]
  ∧ cp'.(waitingQueue) = [1%nat]
  ∧ cp'.(freeConn) = two_waiters.(pool).(freeConn)
  ∧ (∀ i c r, [Ref 0] !! i = Some c → [0%nat; 1%nat] !! i = Some r →
       ∃ e'', Get_recv r e' = Some ((c, None), e''))
  ∧ (∀ r, r ∈ [1%nat] → Get_recv r e' = None)
  ∧ e'.(closeLog) = two_waiters.(env).(closeLog).
Proof.
  apply (Puts_serve_waiters_in_order 9 [Ref 0] [0%nat; 1%nat]
           two_waiters.(pool) two_waiters.(env)); try reflexivity.
  - apply NoDup_cons. split; [|apply NoDup_singleton].
    intros H%list_elem_of_singleton. discriminate.
  - intros r [-> | ->%list_elem_of_singleton]%elem_of_cons; reflexivity.
  - repeat constructor.
  - simpl. lia.
Defined.

(** ** Capacity *)

Lemma step_unbounded (a : action) (s : Sys) :
  s.(pool).(maxOpen) = 0 → s.(pool).(waitingQueue) = [] → s.(waiting) = [] →
  (step a s).(pool).(waitingQueue) = [] ∧ (step a s).(waiting) = [].
Proof.
  intros Hm Hq Hw. unfold step. destruct (halted s); [done|].
  destruct a as [|now|r|now c|c|]; simpl.
  - unfold Get_locked. destruct (closed (pool s)); [done|].
    rewrite Hm. simpl.
    by destruct (is_cachedOrNew (strategy (pool s))), (freeConn (pool s)).
  - destruct (creating s); [done|]. unfold Get_create.
    by destruct (factory (pool s) (factoryCalls (env s))) as [v [er|]].
  - rewrite Hw. case_bool_decide as Hin; [|done]. by apply elem_of_nil in Hin.
  - unfold Put. destruct (is_nil c); [done|].
    destruct (closed (pool s)); [done|]. destruct (_ && _); [done|].
    by rewrite Hq.
  - unfold Close. by destruct (is_nil c), (closed (pool s)).
  - done.
Qed.

(** X11: in an unbounded pool ([MaxCap = 0]) made by [NewPool] nobody ever
    waits: whatever the callers do, the wait queue stays empty, no caller is
    suspended, and [Get] returns at once. *)
Theorem unbounded_never_waits (cfg : Config) (now : Z) (e e' : Env)
        (cp : channelPool) (acts : list action) (now' : Z) :
  NewPool cfg now e = (Some cp, None, e') →
  cfg.(MaxCap) = 0 →
  let s := run acts (boot cp e') in
  s.(pool).(waitingQueue) = [] ∧ s.(waiting) = []
  ∧ ∃ r, (Get now' s.(pool) s.(env)).1.1 = Returned r.
Proof.
  intros HN Hcap s.
  apply NewPool_ok in HN as (_ & _ & Hm & _ & _ & Hq & _).
  rewrite Hcap in Hm.
  assert (∀ acts s0, maxOpen (pool s0) = 0 → waitingQueue (pool s0) = [] →
                     waiting s0 = [] →
                     waitingQueue (pool (run acts s0)) = []
                     ∧ waiting (run acts s0) = []) as Hrun.
  { clear. induction acts as [|a acts IH]; intros s0 Hm Hq Hw; [done|].
    simpl. destruct (step_unbounded a s0 Hm Hq Hw) as [Hq' Hw'].
    apply IH; [|done|done]. by rewrite step_maxOpen. }
  destruct (Hrun acts (boot cp e') Hm Hq eq_refl) as [Hq' Hw'].
  fold s in Hq', Hw'. repeat split; try done.
  assert (maxOpen (pool s) = 0) as Hm' by (unfold s; by rewrite run_maxOpen).
  unfold Get, Get_locked. destruct (closed (pool s)); [eauto|].
  rewrite Hm'. simpl.
  destruct (is_cachedOrNew (strategy (pool s))), (freeConn (pool s)); eauto;
    destruct (Get_create _ _ _) as [[r cp2] e2]; eauto.
Qed.

Lemma unbounded_never_waits_witness :
  let cfg := config 0 0 fresh_factory in
  let s := run [AGet; AGet; ACreate 1; APut 2 (Ref 0); AGet; AGet; AClose (Ref 3)]
               (boot (pool_of cfg 0).1 (pool_of cfg 0).2) in
  s.(pool).(waitingQueue) = [] ∧ s.(waiting) = []
  ∧ ∃ r, (Get 5 s.(pool) s.(env)).1.1 = Returned r.
Proof.
  intros cfg.
  apply (unbounded_never_waits cfg 0 env0 (pool_of cfg 0).2 (pool_of cfg 0).1
           [AGet; AGet; ACreate 1; APut 2 (Ref 0); AGet; AGet; AClose (Ref 3)] 5);
    reflexivity.
Defined.

Lemma Get_full_blocks (now : Z) (cp : channelPool) (e : Env) :
  cp.(closed) = false → cp.(freeConn) = [] →
  0 < cp.(maxOpen) <= cp.(numOpen) →
  Get now cp e =
    (Blocked, with_waitingQueue (cp.(waitingQueue) ++ [e.(nextChan)]) cp,
     (make_chan e).2).
Proof.
  intros Hc Hf Hfull. unfold Get, Get_locked. rewrite Hc, Hf.
  assert ((0 <? maxOpen cp) && (maxOpen cp <=? numOpen cp) = true) as ->.
  { apply andb_true_iff. rewrite Z.ltb_lt, Z.leb_le. lia. }
  unfold Get_recv, make_chan. simpl.
  destruct (is_cachedOrNew (strategy cp)); simpl; by rewrite lookup_insert_eq.
Qed.

Lemma Gets_create (now : Z) (k : nat) :
  ∀ (cp : channelPool) (e : Env),
    cp.(closed) = false → cp.(freeConn) = [] →
    0 < cp.(maxOpen) < 2^63 → 0 <= cp.(numOpen) →
    cp.(numOpen) + Z.of_nat k <= cp.(maxOpen) →
    (∀ i, (e.(factoryCalls) <= i < e.(factoryCalls) + k)%nat →
          (cp.(factory) i).2 = None) →
    Gets now k cp e =
      (map (λ i, Returned ((cp.(factory) i).1, None)) (seq e.(factoryCalls) k),
       with_numOpen (cp.(numOpen) + Z.of_nat k) cp,
       add_factoryCalls k e).
Proof.
  induction k as [|k IH]; intros cp e Hc Hf Hm Hn Hk Hok.
  - simpl. unfold add_factoryCalls. rewrite Z.add_0_r, Nat.add_0_r.
    by destruct cp, e.
  - simpl. unfold Get, Get_locked. rewrite Hc, Hf.
    assert ((0 <? maxOpen cp) && (maxOpen cp <=? numOpen cp) = false) as ->.
    { apply andb_false_iff. right. apply Z.leb_gt. lia. }
    assert ((let '(r, cp2, e2) :=
               Get_create now (with_numOpen (incr (numOpen cp)) cp) e in
             (Returned r, cp2, e2))
            = (Returned ((factory cp (factoryCalls e)).1, None),
               with_numOpen (numOpen cp + 1) cp, count_factory e)) as HC.
    { unfold Get_create. simpl.
      pose proof (Hok (factoryCalls e) ltac:(lia)) as H0.
      destruct (factory cp (factoryCalls e)) as [v err]. simpl in H0. subst err.
      simpl. rewrite incr_small by (unfold in_int; lia). reflexivity. }
    destruct (is_cachedOrNew (strategy cp)); rewrite HC;
      (rewrite IH; simpl; try done; try lia;
       [ unfold add_factoryCalls; simpl;
         replace (numOpen cp + 1 + Z.of_nat k) with (numOpen cp + Z.pos (Pos.of_succ_nat k)) by lia;
         replace (S (factoryCalls e + k))%nat with (factoryCalls e + S k)%nat by lia;
         reflexivity
       | intros i Hi; apply Hok; lia ]).
Qed.

Lemma Gets_idle_then (now : Z) (k : nat) (l : list idleConn) :
  ∀ (cp : channelPool) (e : Env),
    cp.(closed) = false → cp.(strategy) = cachedOrNewConn →
    cp.(freeConn) = l →
    Gets now (length l + k) cp e =
      let '(rs, cp2, e2) := Gets now k (with_freeConn [] cp) e in
      (map (λ ic, Returned (ic.(conn), None)) l ++ rs, cp2, e2).
Proof.
  induction l as [|ic l IH]; intros cp e Hc Hs Hf; simpl.
  - replace (with_freeConn [] cp) with cp by (destruct cp; simpl in *; by subst).
    by destruct (Gets now k cp e) as [[rs cp2] e2].
  - rewrite (Get_idle now cp e ic l) by done.
    rewrite (IH (with_freeConn l cp)) by done. simpl.
    by destruct (Gets now k _ e) as [[rs cp2] e2].
Qed.

(** X12: a bounded pool serves exactly [MaxCap] resources.  On the pool
    made by [NewPool] with [0 < MaxCap] (a Go [int]), when the factory
    succeeds on its next [MaxCap - InitialCap] calls, [MaxCap] successive
    [Get] of one caller all return: first the [InitialCap] idle resources,
    oldest first, then the newly made ones; afterwards [numOpen = MaxCap],
    the idle set is empty, and one more [Get] does not return: it queues a
    channel and waits. *)
Theorem Gets_up_to_MaxCap (cfg : Config) (now now' : Z) (e e1 : Env)
        (cp : channelPool) :
  NewPool cfg now e = (Some cp, None, e1) →
  0 < cfg.(MaxCap) < 2^63 →
  (∀ i, (e1.(factoryCalls) <= i
         < e1.(factoryCalls) + Z.to_nat (cfg.(MaxCap) - cfg.(InitialCap)))%nat →
        (cp.(factory) i).2 = None) →
  let '(rs, cp2, e2) := Gets now' (Z.to_nat cfg.(MaxCap)) cp e1 in
  rs = map (λ ic, Returned (ic.(conn), None)) cp.(freeConn)
       ++ map (λ i, Returned ((cp.(factory) i).1, None))
              (seq e1.(factoryCalls) (Z.to_nat (cfg.(MaxCap) - cfg.(InitialCap))))
  ∧ cp2.(numOpen) = cfg.(MaxCap) ∧ cp2.(freeConn) = []
  ∧ (Get now' cp2 e2).1.1 = Blocked
  ∧ (Get now' cp2 e2).1.2.(waitingQueue) = [e2.(nextChan)].
Proof.
  intros HN Hcap Hok.
  apply NewPool_ok in HN
    as (Hi & Hn & Hm & _ & Hc & Hq & Hs & Hlen & _).
  replace (Z.to_nat (MaxCap cfg))
    with (length (freeConn cp) + Z.to_nat (MaxCap cfg - InitialCap cfg))%nat
    by lia.
  rewrite (Gets_idle_then now' _ (freeConn cp) cp e1) by done.
  rewrite Gets_create; simpl; try done; try lia.
  repeat split.
  - lia.
  - rewrite Get_full_blocks; simpl; try done; lia.
  - rewrite Get_full_blocks; simpl; try done; [by rewrite Hq|lia].
Qed.

Lemma Gets_up_to_MaxCap_witness :
  let cfg := config 1 3 fresh_factory in
  let '(rs, cp2, e2) := Gets 1 3 (pool_of cfg 0).1 (pool_of cfg 0).2 in
  rs = [Returned (Ref 0, None); Returned (Ref 1, None); Returned (Ref 2, None)]
  ∧ cp2.(numOpen) = 3 ∧ cp2.(freeConn) = []
  ∧ (Get 1 cp2 e2).1.1 = Blocked
  ∧ (Get 1 cp2 e2).1.2.(waitingQueue) = [e2.(nextChan)].
Proof.
  apply (Gets_up_to_MaxCap (config 1 3 fresh_factory) 0 1 env0
           (pool_of (config 1 3 fresh_factory) 0).2
           (pool_of (config 1 3 fresh_factory) 0).1).
  - reflexivity.
  - simpl. lia.
  - intros i _. reflexivity.
Defined.

(** ** Close and the callers that wait *)

(** X13: [Close] wakes nobody.  On an open pool that is full
    ([numOpen = maxOpen > 0], no idle resource), [Close] of a non-nil value
    gives one slot back ([numOpen = maxOpen - 1]) but leaves the wait queue
    and every channel as they are: a caller that waits goes on waiting, and
    the next caller that enters [Get] is not queued behind it but takes the
    creation path. *)
Theorem Close_wakes_no_waiter (c : iface) (cp : channelPool) (e : Env)
        (req : nat) :
  is_nil c = false → cp.(closed) = false → cp.(freeConn) = [] →
  0 < cp.(maxOpen) < 2^63 → cp.(numOpen) = cp.(maxOpen) →
  Get_recv req e = None →
  let '(r, cp1, e1) := Close c cp e in
  cp1.(numOpen) = cp.(maxOpen) - 1
  ∧ cp1.(waitingQueue) = cp.(waitingQueue)
  ∧ e1.(chans) = e.(chans)
  ∧ Get_recv req e1 = None
  ∧ (Get_locked cp1 e1).1.1 = GetCreate.
Proof.
  intros Hn Hc Hf Hm Hfull Hb. unfold Close. rewrite Hn, Hc.
  assert (decr (numOpen cp) = maxOpen cp - 1) as Hd
    by (rewrite decr_small; unfold in_int; lia).
  repeat split; simpl; try done.
  - by apply (Get_recv_None_chans req e).
  - unfold Get_locked. simpl. rewrite Hc, Hf, Hd.
    assert ((0 <? maxOpen cp) && (maxOpen cp <=? maxOpen cp - 1) = false) as ->.
    { apply andb_false_iff. right. apply Z.leb_gt. lia. }
    by destruct (is_cachedOrNew (strategy cp)).
Qed.

Lemma Close_wakes_no_waiter_witness :
  let '(r, cp1, e1) := Close (Ref 0) one_waiter.(pool) one_waiter.(env) in
  cp1.(numOpen) = one_waiter.(pool).(maxOpen) - 1
  ∧ cp1.(waitingQueue) = one_waiter.(pool).(waitingQueue)
  ∧ e1.(chans) = one_waiter.(env).(chans)
  ∧ Get_recv 0%nat e1 = None
  ∧ (Get_locked cp1 e1).1.1 = GetCreate.
Proof.
  apply (Close_wakes_no_waiter (Ref 0) one_waiter.(pool) one_waiter.(env) 0%nat);
    try reflexivity.
  vm_compute. split; [reflexivity|]. reflexivity.
Defined.

(** ** Idle resources and waiting callers *)

Lemma step_idle_or_waiting (a : action) (s : Sys) :
  s.(pool).(strategy) = cachedOrNewConn →
  s.(pool).(freeConn) = [] ∨ s.(pool).(waitingQueue) = [] →
  (step a s).(pool).(strategy) = cachedOrNewConn
  ∧ ((step a s).(pool).(freeConn) = [] ∨ (step a s).(pool).(waitingQueue) = []).
Proof.
  intros Hs Hor. unfold step. destruct (halted s); [done|].
  destruct a as [|now|r|now c|c|]; simpl.
  - unfold Get_locked. destruct (closed (pool s)); [done|].
    rewrite Hs. simpl.
    destruct (freeConn (pool s)) as [|ic rest] eqn:Hf.
    + destruct (_ && _); simpl; auto.
    + simpl. destruct Hor as [?|Hq]; [done|]. auto.
  - destruct (creating s); [done|]. unfold Get_create.
    by destruct (factory (pool s) (factoryCalls (env s))) as [v [er|]].
  - case_bool_decide; [|done]. by destruct (Get_recv r (env s)) as [[x e]|].
  - unfold Put. destruct (is_nil c); [done|].
    destruct (closed (pool s)); [done|]. destruct (_ && _); [done|].
    destruct (waitingQueue (pool s)) as [|req rest] eqn:Hq.
    + simpl. auto.
    + destruct Hor as [Hf|?]; [|done].
      destruct (send _ _ _); simpl; auto.
  - unfold Close. by destruct (is_nil c), (closed (pool s)).
  - done.
Qed.

(** X14: on a pool made by [NewPool], whatever the callers do, the policy
    stays [cachedOrNewConn] and the idle set and the wait queue are never
    both non-empty: no caller is ever left waiting while a resource sits
    idle.  Hence on an open pool with an idle resource [Get] returns the
    oldest idle resource at once, without calling the factory. *)
Theorem no_waiter_while_idle (cfg : Config) (now : Z) (e e' : Env)
        (cp : channelPool) (acts : list action) (now' : Z) :
  NewPool cfg now e = (Some cp, None, e') →
  let s := run acts (boot cp e') in
  s.(pool).(strategy) = cachedOrNewConn
  ∧ (s.(pool).(freeConn) = [] ∨ s.(pool).(waitingQueue) = [])
  ∧ (∀ ic rest, s.(pool).(closed) = false →
       s.(pool).(freeConn) = ic :: rest →
       s.(pool).(waitingQueue) = []
       ∧ Get now' s.(pool) s.(env)
         = (Returned (ic.(conn), None), with_freeConn rest s.(pool), s.(env))).
Proof.
  intros HN s.
  apply NewPool_ok in HN as (_ & _ & _ & _ & _ & Hq & Hs & _).
  assert (∀ acts s0, strategy (pool s0) = cachedOrNewConn →
                     freeConn (pool s0) = [] ∨ waitingQueue (pool s0) = [] →
                     strategy (pool (run acts s0)) = cachedOrNewConn
                     ∧ (freeConn (pool (run acts s0)) = []
                        ∨ waitingQueue (pool (run acts s0)) = [])) as Hrun.
  { clear. induction acts as [|a acts IH]; intros s0 Hs Hor; [done|].
    simpl. destruct (step_idle_or_waiting a s0 Hs Hor) as [Hs' Hor'].
    by apply IH. }
  destruct (Hrun acts (boot cp e') Hs (or_intror Hq)) as [Hs' Hor'].
  fold s in Hs', Hor'. repeat split; try done.
  - destruct Hor' as [Hf|?]; [|done]. congruence.
  - by apply Get_idle.
Qed.

Lemma no_waiter_while_idle_witness :
  let cfg := config 1 1 fresh_factory in
  let s := run [AGet; AGet; APut 2 (Ref 0); ARecv 0%nat; APut 3 (Ref 0)]
               (boot (pool_of cfg 0).1 (pool_of cfg 0).2) in
  s.(pool).(strategy) = cachedOrNewConn
  ∧ (s.(pool).(freeConn) = [] ∨ s.(pool).(waitingQueue) = [])
  ∧ (∀ ic rest, s.(pool).(closed) = false →
       s.(pool).(freeConn) = ic :: rest →
       s.(pool).(waitingQueue) = []
       ∧ Get 4 s.(pool) s.(env)
         = (Returned (ic.(conn), None), with_freeConn rest s.(pool), s.(env))).
Proof.
  intros cfg.
  apply (no_waiter_while_idle cfg 0 env0 (pool_of cfg 0).2 (pool_of cfg 0).1
           [AGet; AGet; APut 2 (Ref 0); ARecv 0%nat; APut 3 (Ref 0)] 4).
  reflexivity.
Defined.

(** ** Release and the resources in use *)



